(** * take: a shallow embedding of the command dispatcher of [take.ts]

    The development follows the source file top to bottom: JavaScript
    strings and values, [convert], [namedFlags], the validation loop of
    [Register], the two help printers [help] and [helpFor], the command
    function [cmd] and the root dispatch of [Register].

    Modelling conventions.
    - A JavaScript string is a sequence of code units; the model keeps the
      code units below 256 and writes them as [ascii].  In that range the
      regular-expression class [\s] and [String.prototype.trim] recognise
      the code units 9 to 13, 32 and 160.
    - Objects used as dictionaries ([Flags], [flagVals], [process.env]) are
      finite maps of their own keys.  [flagVals] is a plain object: the
      test [name in flagVals] also holds for the names inherited from
      [Object.prototype], and an assignment to the inherited accessor
      [__proto__] stores nothing ([Object_prototype], [has_property],
      [assign]); a handler is a function of the own keys.  The map for
      [process.env] gives what [process.env[name]] reads, as text: the
      variable [name], or, for a name that is no variable and that
      [process.env] inherits, the text of the inherited value.
    - Values have the types that [take.ts] declares for them, except
      where [Register] itself tests for another case.
    - [console.log] and [process.exit] are effects: a computation returns
      the list of things printed together with the way it ended. *)

From Stdlib Require Import String Ascii ZArith Bool Lia.
From Stdlib Require Import Sorting.Sorted Sorting.Permutation.
From stdpp Require Import base option list strings gmap sorting.

Local Open Scope Z_scope.

(** ** Strings *)

Module Js.

(** [\s], and the white space removed by [trim], on code units below 256. *)
Definition is_space (c : ascii) : bool :=
  let n := Ascii.nat_of_ascii c in
  ((9 <=? n)%nat && (n <=? 13)%nat) || (n =? 32)%nat || (n =? 160)%nat.

Definition is_digit (c : ascii) : bool :=
  let n := Ascii.nat_of_ascii c in (48 <=? n)%nat && (n <=? 57)%nat.

(** [s[0]]: the first code unit, [undefined] for the empty string. *)
Definition first_char (s : string) : option ascii :=
  match s with
  | EmptyString => None
  | String c _ => Some c
  end.

(** [s.split("")] *)
Definition letters (s : string) : list ascii := list_ascii_of_string s.

(** [xs.join(sep)] *)
Fixpoint join (sep : string) (xs : list string) : string :=
  match xs with
  | [] => ""
  | [x] => x
  | x :: rest => x +:+ sep +:+ join sep rest
  end.

Fixpoint all_chars (p : ascii -> bool) (s : string) : bool :=
  match s with
  | EmptyString => true
  | String c r => p c && all_chars p r
  end.

(** The maximal runs of non-space code units of [s], left to right. *)
Fixpoint words (s : string) : list string :=
  match s with
  | EmptyString => []
  | String c r =>
      if is_space c then words r
      else match r with
           | EmptyString => [String c ""]
           | String c' _ =>
               if is_space c' then String c "" :: words r
               else match words r with
                    | w :: ws => String c w :: ws
                    | [] => [String c ""]
                    end
           end
  end.

(** [s.trim().split(/\s+/g)]: splitting the empty string gives [[""]]. *)
Definition trim_split (s : string) : list string :=
  match words s with
  | [] => [""]
  | ws => ws
  end.

(** The digits at the front of [s], and what follows them. *)
Fixpoint span_digits (s : string) : string * string :=
  match s with
  | EmptyString => ("", "")
  | String c r =>
      if is_digit c then let '(ds, rest) := span_digits r in (String c ds, rest)
      else ("", s)
  end.

Fixpoint drop_spaces (s : string) : string :=
  match s with
  | EmptyString => ""
  | String c r => if is_space c then drop_spaces r else s
  end.

(** [a < b] on strings: lexicographic on code units. *)
Definition lt (a b : string) : bool := String.ltb a b.

End Js.

(** ** Numbers and values *)

(** A number as [parseFloat] reads it.  [Decimal] stands for the double
    nearest to the literal; of the rounding the model has what the code
    can observe, whether the double is zero ([is_zero]). *)
Inductive number :=
| NaN
| Infinity (negative : bool)
| Decimal (negative : bool) (int_part frac_part : string)
          (exponent : option (bool * string)).

Definition isNaN (n : number) : bool :=
  match n with NaN => true | _ => false end.

Definition parse_exponent (s : string) : option (bool * string) :=
  match s with
  | String c r =>
      if (Ascii.eqb c "e" || Ascii.eqb c "E")%char then
        let '(neg, r') :=
          match r with
          | String "+" r' => (false, r')
          | String "-" r' => (true, r')
          | _ => (false, r)
          end in
        match Js.span_digits r' with
        | (EmptyString, _) => None
        | (ds, _) => Some (neg, ds)
        end
      else None
  | EmptyString => None
  end.

Definition parse_unsigned (neg : bool) (s : string) : number :=
  if String.prefix "Infinity" s then Infinity neg
  else
    let '(ip, r) := Js.span_digits s in
    match r with
    | String "." r' =>
        let '(fp, r'') := Js.span_digits r' in
        match ip, fp with
        | EmptyString, EmptyString => NaN
        | _, _ => Decimal neg ip fp (parse_exponent r'')
        end
    | _ =>
        match ip with
        | EmptyString => NaN
        | _ => Decimal neg ip "" (parse_exponent r)
        end
    end.

(** [parseFloat(val)]: leading white space is skipped, then the longest
    prefix that is a decimal literal is read; [NaN] when there is none. *)
Definition parseFloat (val : string) : number :=
  match Js.drop_spaces val with
  | String "+" r => parse_unsigned false r
  | String "-" r => parse_unsigned true r
  | s => parse_unsigned false s
  end.

(** [number | string | boolean | Date], the type of [Flag.initial]; the
    values stored in [flagVals] are of the same kinds. *)
Inductive value :=
| VNumber (n : number)
| VString (s : string)
| VBoolean (b : bool)
| VDate (time : Z).

Definition typeof (v : value) : string :=
  match v with
  | VNumber _ => "number"
  | VString _ => "string"
  | VBoolean _ => "boolean"
  | VDate _ => "object"
  end.

Definition is_boolean (v : value) : bool :=
  match v with VBoolean _ => true | _ => false end.

(** The integer that a run of decimal digits writes. *)
Definition digits_value (ds : string) : Z :=
  fold_left (λ acc c, 10 * acc + (Z.of_nat (Ascii.nat_of_ascii c) - 48))
    (list_ascii_of_string ds) 0.

(** The power of ten of a literal [ip.fp e exp], counted from the last
    digit of [fp]: the literal is [digits_value (ip ++ fp)] times ten to
    this power. *)
Definition power_of_ten (fp : string) (exponent : option (bool * string)) : Z :=
  match exponent with
  | Some (true, ds) => - digits_value ds
  | Some (false, ds) => digits_value ds
  | None => 0
  end - Z.of_nat (String.length fp).

(** The double nearest to a literal is zero when the literal is at most
    [2 ^ -1075], half of the least positive double (at the half the tie
    goes to the even neighbour, which is zero).  (Past twenty
    significant digits the standard lets an implementation round a
    shortened literal; the model rounds the literal as it is.) *)
Definition is_zero (n : number) : bool :=
  match n with
  | Decimal _ ip fp exponent =>
      let m := digits_value (ip +:+ fp) in
      let e := power_of_ten fp exponent in
      if m =? 0 then true
      else if 0 <=? e then false
      else m * 2 ^ 1075 <=? 10 ^ (- e)
  | _ => false
  end.

(** JavaScript truthiness of a string, and of a value. *)
Definition nonempty (s : string) : bool :=
  match s with EmptyString => false | _ => true end.

Definition truthy (v : value) : bool :=
  match v with
  | VNumber n => negb (isNaN n || is_zero n)
  | VString s => nonempty s
  | VBoolean b => b
  | VDate _ => true
  end.

(** ** convert *)

(** A [throw] of a string is the error case. *)
Definition convert (val : string) (type : string) : string + value :=
  if String.eqb type "string" then inr (VString val)
  else if String.eqb type "number" then
    let f := parseFloat val in
    if isNaN f then inl ("expected a number, got: " +:+ val)
    else inr (VNumber f)
  else if String.eqb type "boolean" then inr (VBoolean (nonempty val))
  else inl ("unknown type: " +:+ type).

(** ** Flags and commands *)

Module Flag.
(** An absent [description] and the empty one are both falsy and both
    print as the empty string; they are the same [description] here. *)
Record t := make {
  initial : value;
  description : string;
  env : option string;
}.
End Flag.

Module namedFlag.
Record t := make {
  name : string;
  initial : value;
  description : string;
  env : option string;
}.
End namedFlag.

Abbreviation Flags := (gmap string Flag.t).
Abbreviation namedFlags_t := (list namedFlag.t).

(** ** Effects: printing, exiting, throwing *)

(** What [console.log] receives.  The help texts are kept as their rows:
    [Overview] holds name and description of each listed command, [Detail]
    the command name and, per flag, the left column as printed together
    with the flag that the right column is rendered from. *)
Inductive output :=
| Overview (rows : list (string * string))
| Detail (cmdName : string) (rows : list (string * namedFlag.t))
| ErrorLine (msg : string)
| BlankLine
| Line (text : string)
| RanIn (cmdName : string).

(** A thrown value: a string, an object with its numeric [code] (if any,
    and then an integer) and its [stack || message] text, or anything
    else. *)
Inductive thrown :=
| ThrowString (s : string)
| ThrowObject (code : option Z) (text : string)
| ThrowOther.

(** The way a computation ends.  [Exited code] is a call of
    [process.exit] with an integer, [ExitedInfinity] a call with
    [Infinity].  [Unfinished] marks a re-entrant call that goes deeper
    than the nesting bound of [cmd]. *)
Inductive ending (A : Type) :=
| Returned (a : A)
| Exited (code : Z)
| ExitedInfinity
| Threw (e : thrown)
| Unfinished.
Arguments Returned {A} a.
Arguments Exited {A} code.
Arguments ExitedInfinity {A}.
Arguments Threw {A} e.
Arguments Unfinished {A}.

Definition M (A : Type) : Type := list output * ending A.

#[global] Instance M_ret : MRet M := λ A a, ([], Returned a).

#[global] Instance M_bind : MBind M := λ A B k m,
  match m with
  | (out, Returned a) => let '(out', e) := k a in (out ++ out', e)
  | (out, Exited code) => (out, Exited code)
  | (out, ExitedInfinity) => (out, ExitedInfinity)
  | (out, Threw e) => (out, Threw e)
  | (out, Unfinished) => (out, Unfinished)
  end.

Definition console_log (o : output) : M unit := ([o], Returned tt).
Definition process_exit {A} (code : Z) : M A := ([], Exited code).

(** [process.exit(x)] for the number that [parseInt] gives. *)
Definition process_exit_number {A} (x : option Z) : M A :=
  match x with
  | Some code => process_exit code
  | None => ([], ExitedInfinity)
  end.
Definition throw {A} (e : thrown) : M A := ([], Threw e).

(** [try { m } catch (err) { h err }]; [process.exit] is not caught. *)
Definition try_catch {A} (m : M A) (h : thrown → M A) : M A :=
  match m with
  | (out, Threw e) => let '(out', r) := h e in (out ++ out', r)
  | _ => m
  end.

Definition printed {A} (m : M A) : list output := fst m.
Definition ended {A} (m : M A) : ending A := snd m.

(** [exit] (line 60): print, then leave with code 1. *)
Definition exit {A} (text : string) : M A :=
  console_log (Line text);; process_exit 1.

Module CommandInput.
Record t := make {
  flags : gmap string value;
  args : list string;
  cmd : list string → M unit;
  cmdName : string;
  help : option string → M unit;
}.
End CommandInput.

(** A registered command, after the validation loop of [Register]. *)
Module TakeCommand.
Record t := make {
  name : string;
  names : list string;
  description : string;
  help : option string;
  flags : Flags;
  run : CommandInput.t → M unit;
}.
End TakeCommand.

(** What the [flags] property of a command holds when [Register] looks at
    it, by the cases that [Register] tells apart: a falsy value, an array,
    or anything else, which [Object.entries] reads as a record. *)
Inductive flags_property :=
| FlagsFalsy
| FlagsArray
| FlagsObject (record : Flags).

(** A command as handed to [Register], before any check: [name] is [None]
    when it is not a string, [run] is [None] when it is not a function. *)
Module NewCommand.
Record t := make {
  name : option string;
  description : string;
  help : option string;
  flags : flags_property;
  run : option (CommandInput.t → M unit);
}.
End NewCommand.

(** ** namedFlags *)

(** [toSorted] and [sort] with a comparator [(a, b) => lt a b ? -1 : 1].
    The keys compared are pairwise distinct wherever the source sorts, so
    the comparator is a strict total order on the elements and the sorted
    list is unique; it is computed by insertion. *)
Fixpoint insert_sorted {A} (lt : A → A → bool) (x : A) (l : list A) : list A :=
  match l with
  | [] => [x]
  | y :: l' => if lt x y then x :: l else y :: insert_sorted lt x l'
  end.

Definition toSorted {A} (lt : A → A → bool) (l : list A) : list A :=
  foldr (insert_sorted lt) [] l.

(** The comparator [(a, b) => a.key < b.key ? -1 : 1] as a test, and the
    two orders on elements that it induces. *)
Definition key_ltb {A} (key : A → string) (a b : A) : bool :=
  Js.lt (key a) (key b).
Definition key_le {A} (key : A → string) (a b : A) : Prop :=
  Js.lt (key b) (key a) = false.
Definition key_lt {A} (key : A → string) (a b : A) : Prop :=
  Js.lt (key a) (key b) = true.

(** [{ name: kv[0], ...kv[1] }] *)
Definition name_flag (kv : string * Flag.t) : namedFlag.t :=
  namedFlag.make kv.1 (Flag.initial kv.2) (Flag.description kv.2) (Flag.env kv.2).

Definition namedFlags (record : Flags) : namedFlags_t :=
  toSorted (key_ltb namedFlag.name) (name_flag <$> map_to_list record).

(** ** Register: the validation loop (lines 176 to 214) *)

Definition dquote : string := String (Ascii.ascii_of_nat 34) "".
Definition newline : string := String (Ascii.ascii_of_nat 10) "".
Definition quoted (s : string) : string := dquote +:+ s +:+ dquote.

(** [c.names = c.name.trim().split(/\s+/g); c.name = c.names.join(" ")] *)
Definition tidy (name : string) : string := Js.join " " (Js.trim_split name).

(** The loop over [Object.entries(c.flags)]: the first flag without a
    description ends the process.  The code meets the entries in the
    order of [Object.entries], the model in the order of [map_to_list],
    which keeps no trace of the order of declaration: when several flags
    lack a description, the flag that the message names may differ from
    the one the code names.  The line count and the exit code do not
    depend on the order, and no theorem below says which flag is named. *)
Fixpoint validate_flags (cname : string) (entries : list (string * Flag.t))
  : M unit :=
  match entries with
  | [] => mret tt
  | (name, flag) :: rest =>
      (if nonempty (Flag.description flag) then mret tt
       else exit ("command " +:+ quoted cname +:+ " flag " +:+ quoted name
                  +:+ " must have a " +:+ quoted "description"));;
      validate_flags cname rest
  end.

(** One turn of [for (const c of commands)]; [names] is the set of tidy
    names seen so far. *)
Definition validate_command (names : gset string) (c : NewCommand.t)
  : M TakeCommand.t :=
  match NewCommand.name c with
  | None => exit ("all CLI(commands) must have a " +:+ quoted "name")
  | Some raw =>
      let cnames := Js.trim_split raw in
      let cname := Js.join " " cnames in
      if decide (cname ∈ names) then exit ("duplicate command name: " +:+ cname)
      else
        match NewCommand.run c with
        | None =>
            exit ("command " +:+ quoted cname +:+ " must have a "
                  +:+ quoted "run" +:+ " function")
        | Some run =>
            match NewCommand.flags c with
            | FlagsFalsy =>
                exit ("command " +:+ quoted cname +:+ " must have "
                      +:+ quoted "flags" +:+ ", you can use {}")
            | FlagsArray =>
                exit ("command " +:+ quoted cname
                      +:+ " flags must be an object, not an array")
            | FlagsObject record =>
                validate_flags cname (map_to_list record);;
                mret (TakeCommand.make cname cnames (NewCommand.description c)
                        (NewCommand.help c) record run)
            end
        end
  end.

Fixpoint validate_commands (names : gset string) (commands : list NewCommand.t)
  : M (list TakeCommand.t) :=
  match commands with
  | [] => mret []
  | c :: rest =>
      tc ← validate_command names c;
      tcs ← validate_commands ({[TakeCommand.name tc]} ∪ names) rest;
      mret (tc :: tcs)
  end.

(** The registry: the checked commands, sorted by name (line 214). *)
Definition validate (commands : list NewCommand.t) : M (list TakeCommand.t) :=
  (match commands with
   | [] => exit "CLI(commands) must have at least 1 command"
   | _ => mret tt
   end);;
  checked ← validate_commands ∅ commands;
  mret (toSorted (key_ltb TakeCommand.name) checked).

(** ** The closures of Register: help, helpFor, cmd *)

Definition help_flag : namedFlag.t :=
  namedFlag.make "help" (VBoolean false) "show help" None.

(** [if (msg)] for [msg?: string] *)
Definition given (msg : option string) : bool :=
  match msg with
  | Some s => nonempty s
  | None => false
  end.

(** [if (msg) { console.log("ERROR:", msg); console.log(""); }] *)
Definition report (msg : option string) : M unit :=
  match msg with
  | Some s =>
      if nonempty s then console_log (ErrorLine s);; console_log BlankLine
      else mret tt
  | None => mret tt
  end.

(** The closure [short] of [helpFor] with its set [shorts]: the text that
    follows the long name, and the set afterwards. *)
Definition alias_text (l : option ascii) : string :=
  ", -" +:+ match l with
            | Some c => String c ""
            | None => "undefined"
            end.

Definition short (shorts : gset (option ascii)) (name : string)
  : string * gset (option ascii) :=
  let l := Js.first_char name in
  if decide (l ∈ shorts) then ("", shorts)
  else (alias_text l, {[l]} ∪ shorts).

(** The left column of a flag, given the text of its alias. *)
Definition left_column (alias : string) (flag : namedFlag.t) : string :=
  " --" +:+ namedFlag.name flag +:+ alias +:+
  (if is_boolean (namedFlag.initial flag) then ""
   else " <" +:+ typeof (namedFlag.initial flag) +:+ ">").

(** The first letters of the names of the flags of [l]. *)
Definition firsts (l : namedFlags_t) : list (option ascii) :=
  (λ g, Js.first_char (namedFlag.name g)) <$> l.

(** [flagSpecs.map(...)] of [helpFor]: the left column of each flag. *)
Fixpoint flag_rows (shorts : gset (option ascii)) (flagSpecs : namedFlags_t)
  : list (string * namedFlag.t) :=
  match flagSpecs with
  | [] => []
  | flag :: rest =>
      let '(alias, shorts') := short shorts (namedFlag.name flag) in
      (left_column alias flag, flag) :: flag_rows shorts' rest
  end.

(** ** flagVals *)

(** [flagVals] is a plain object, [{}]: besides its own keys it has the
    properties that every object inherits from [Object.prototype]. *)
Definition Object_prototype : list string :=
  ["constructor"; "__defineGetter__"; "__defineSetter__"; "hasOwnProperty";
   "__lookupGetter__"; "__lookupSetter__"; "isPrototypeOf";
   "propertyIsEnumerable"; "toString"; "valueOf"; "__proto__";
   "toLocaleString"].

(** [name in flagVals] *)
Definition has_property (name : string) (vals : gmap string value) : bool :=
  bool_decide (is_Some (vals !! name) ∨ name ∈ Object_prototype).

(** [flagVals[name] = v] for a value [v] that [convert] made, or a
    boolean, or the initial value of a flag whose name is not inherited.
    The inherited [__proto__] is an accessor whose setter ignores a value
    that is not an object: under that name nothing is stored.  Any other
    name becomes an own key. *)
Definition assign (name : string) (v : value) (vals : gmap string value)
  : gmap string value :=
  if String.eqb name "__proto__" then vals else <[name := v]> vals.

(** The state of the loop over [rest] in [cmd]. *)
Record parse_state := ParseState {
  flagVals : gmap string value;
  cmdArgs : list string;
  nextFlag : option namedFlag.t;
}.

(** [/^-(-?)(\S+)$/.exec(arg)]: [Boolean(m[1])] and [m[2]]. *)
Definition flag_marker (arg : string) : option (bool * string) :=
  match arg with
  | String "-" r =>
      if nonempty r && Js.all_chars (λ c, negb (Js.is_space c)) r then
        match r with
        | String "-" (String c r') => Some (true, String c r')
        | _ => Some (false, r)
        end
      else None
  | _ => None
  end.

(** [flagSpecs.find(...)] for a marker. *)
Definition find_flag (flagSpecs : namedFlags_t) (long : bool) (name : string)
  : option namedFlag.t :=
  List.find
    (λ f, if negb long then
            match Js.first_char (namedFlag.name f) with
            | Some l => bool_decide (l ∈ Js.letters name)
            | None => false
            end
          else String.eqb (namedFlag.name f) name)
    flagSpecs.

(** The double nearest to a natural number, as an integer; [None] is
    [Infinity].  Below [2 ^ 53] every integer is a double; above, the
    integer is rounded to 53 significant bits, a tie going to the even
    neighbour. *)
Definition nearest_double (n : Z) : option Z :=
  if n <? 2 ^ 53 then Some n
  else
    let e := Z.log2 n - 52 in
    let q := Z.shiftr n e in
    let r := n - Z.shiftl q e in
    let half := Z.shiftl 1 (e - 1) in
    let q' := if (half <? r) || ((r =? half) && Z.odd q) then q + 1 else q in
    let m := Z.shiftl q' e in
    if m <? 2 ^ 1024 then Some m else None.

(** [parseInt(ds, 10)] for a run of digits [ds]: the number value of the
    integer that the digits write.  (Past twenty significant digits the
    standard lets an implementation round a shortened run; the model
    rounds the run as it is.) *)
Definition parseInt_digits (ds : string) : option Z :=
  nearest_double (digits_value ds).

(** [/exit with (\d+)/.test(msg)] and [parseInt(RegExp.$1, 10)]: [None]
    when the text has no match, or else the number parsed from the digits
    of the leftmost match. *)
Fixpoint exit_with (text : string) : option (option Z) :=
  match text with
  | EmptyString => None
  | String _ r =>
      if String.prefix "exit with " text then
        match Js.span_digits (String.substring 10 (String.length text) text) with
        | (EmptyString, _) => exit_with r
        | (ds, _) => Some (parseInt_digits ds)
        end
      else exit_with r
  end.

Section Registry.

(** The sorted [commands] and [process.env] that the closures capture. *)
Variable commands : list TakeCommand.t.
Variable process_env : gmap string string.

(** The rows of the Overview: the commands that pass the filter on the
    name [debug], each with its description. *)
Definition listed : list (string * string) :=
  (λ c, (TakeCommand.name c, TakeCommand.description c)) <$>
  filter (λ c, TakeCommand.name c ≠ "debug"
               ∨ process_env !! "DEBUG" = Some "1") commands.

(** [help] (lines 228 to 247): the Overview. *)
Definition help {A} (msg : option string) : M A :=
  console_log (Overview listed);;
  report msg;;
  process_exit (if given msg then 1 else 0).

(** [helpFor] (lines 249 to 291): the Detail view of one command. *)
Definition helpFor {A} (cmd : TakeCommand.t) (flagSpecs : namedFlags_t)
    (msg : option string) : M A :=
  console_log (Detail (TakeCommand.name cmd) (flag_rows ∅ flagSpecs));;
  report msg;;
  process_exit 0.

(** Stage 1 of [cmd]: the loop [for (let i = args.length - 1; i >= 0; i--)],
    with [n = i + 1]. *)
Fixpoint resolve_from (args : list string) (n : nat)
  : option (TakeCommand.t * list string) :=
  match n with
  | O => None
  | S i =>
      let names := take (S i) args in
      let rest := drop (S i) args in
      let name := Js.join " " names in
      match List.find (λ c, String.eqb (TakeCommand.name c) name) commands with
      | Some c => Some (c, rest)
      | None => resolve_from args i
      end
  end.

Definition resolve (args : list string) : option (TakeCommand.t * list string) :=
  resolve_from args (length args).

(** Stage 2 of [cmd]: one turn of [for (const arg of rest)]. *)
Definition parse_arg (cmdHelp : ∀ A, option string → M A)
    (flagSpecs : namedFlags_t) (st : parse_state) (arg : string)
  : M parse_state :=
  match nextFlag st with
  | Some nf =>
      match convert arg (typeof (namedFlag.initial nf)) with
      | inl err => throw (ThrowString err)
      | inr v =>
          mret (ParseState (assign (namedFlag.name nf) v (flagVals st))
                           (cmdArgs st) None)
      end
  | None =>
      match flag_marker arg with
      | Some (long, name) =>
          match find_flag flagSpecs long name with
          | None => cmdHelp _ (Some ("unknown flag " +:+ quoted name))
          | Some fs =>
              if is_boolean (namedFlag.initial fs) then
                mret (ParseState (assign (namedFlag.name fs) (VBoolean true)
                                    (flagVals st))
                                 (cmdArgs st) None)
              else mret (ParseState (flagVals st) (cmdArgs st) (Some fs))
          end
      | None => mret (ParseState (flagVals st) (cmdArgs st ++ [arg]) None)
      end
  end.

Fixpoint parse_args (cmdHelp : ∀ A, option string → M A)
    (flagSpecs : namedFlags_t) (st : parse_state) (rest : list string)
  : M parse_state :=
  match rest with
  | [] => mret st
  | arg :: rest' =>
      st' ← parse_arg cmdHelp flagSpecs st arg;
      parse_args cmdHelp flagSpecs st' rest'
  end.

(** [process.env[env]] under [if (env && process.env[env])] *)
Definition env_value (env : option string) : option string :=
  match env with
  | Some e =>
      if nonempty e then
        match process_env !! e with
        | Some s => if nonempty s then Some s else None
        | None => None
        end
      else None
  | None => None
  end.

(** One turn of the loop that sets default values (lines 370 to 382). *)
Definition set_default (vals : gmap string value) (flag : namedFlag.t)
  : M (gmap string value) :=
  if has_property (namedFlag.name flag) vals then mret vals
  else
    match env_value (namedFlag.env flag) with
    | Some s =>
        match convert s (typeof (namedFlag.initial flag)) with
        | inl err => throw (ThrowString err)
        | inr v => mret (assign (namedFlag.name flag) v vals)
        end
    | None =>
        mret (assign (namedFlag.name flag) (namedFlag.initial flag) vals)
    end.

Fixpoint set_defaults (vals : gmap string value) (flagSpecs : namedFlags_t)
  : M (gmap string value) :=
  match flagSpecs with
  | [] => mret vals
  | flag :: rest =>
      vals' ← set_default vals flag;
      set_defaults vals' rest
  end.


(** The list [flagSpecs] of [cmd]: the sorted flags, then [--help]. *)
Definition flagSpecs_of (c : TakeCommand.t) : namedFlags_t :=
  namedFlags (TakeCommand.flags c) ++ [help_flag].

(** The loop over [rest], from the empty [flagVals] and [cmdArgs]. *)
Definition command_line (c : TakeCommand.t) (rest : list string)
  : M parse_state :=
  parse_args (λ A, @helpFor A c (flagSpecs_of c)) (flagSpecs_of c)
    (ParseState ∅ [] None) rest.

(** [cmd] from the parsing of [rest] to the default values: the flag
    values and the arguments that the handler receives. *)
Definition parse (c : TakeCommand.t) (rest : list string)
  : M (gmap string value * list string) :=
  let flagSpecs := flagSpecs_of c in
  let cmdHelp := λ A, @helpFor A c flagSpecs in
  st ← command_line c rest;
  (match nextFlag st with
   | Some nf => cmdHelp _ (Some ("missing value for flag: " +:+ namedFlag.name nf))
   | None => mret tt
   end);;
  (match flagVals st !! "help" with
   | Some v => if truthy v then cmdHelp _ None else mret tt
   | None => mret tt
   end);;
  vals ← set_defaults (flagVals st) flagSpecs;
  mret (vals, cmdArgs st).

(** [cmd] (lines 294 to 400); [reenter] is what [input.cmd] does. *)
Definition cmd_body (reenter : list string → M unit) (args : list string)
  : M unit :=
  (match args with
   | [] => help None
   | _ => mret tt
   end);;
  match resolve args with
  | None => help (Some ("no matched command: " +:+ Js.join " " args))
  | Some (c, rest) =>
      '(vals, cargs) ← parse c rest;
      try_catch
        (TakeCommand.run c
           (CommandInput.make vals cargs reenter (TakeCommand.name c)
              (helpFor c (flagSpecs_of c))))
        (λ err,
           (match err with
            | ThrowString s => helpFor c (flagSpecs_of c) (Some s)
            | _ => mret tt
            end);;
           throw err);;
      console_log (RanIn (TakeCommand.name c))
  end.

(** Handlers may call [cmd] again; [depth] bounds the nesting of such
    calls, and a call below the bound ends as [Unfinished]. *)
Fixpoint cmd (depth : nat) (args : list string) : M unit :=
  cmd_body
    (match depth with
     | O => λ _, ([], Unfinished)
     | S d => cmd d
     end)
    args.

(** The root command of [Register] (lines 401 to 431). *)
Definition root (depth : nat) (args : list string) : M unit :=
  (match args with
   | [] => help None
   | a :: _ =>
       if String.eqb a "-h" || String.eqb a "--help" then help None
       else mret tt
   end);;
  try_catch (cmd depth args)
    (λ err,
       match err with
       | ThrowString s => help (Some s)
       | ThrowObject (Some code) _ => process_exit code
       | ThrowObject None text =>
           match exit_with text with
           | Some x => process_exit_number x
           | None =>
               console_log (Line ("ERROR: " +:+ text +:+ newline));;
               process_exit 1
           end
       | ThrowOther => process_exit 1
       end).

End Registry.

(** [Register(...commands)] with [process.argv.slice(2)] as [args] and the
    environment as it is once the [.env] file has been read. *)
Definition Register (depth : nat) (commands : list NewCommand.t)
    (process_env : gmap string string) (args : list string) : M unit :=
  registry ← validate commands;
  root registry process_env depth args.

(** ** The value of a flag that is not on the command line *)

(** [v] is what the loop of default values stores for a flag with this
    [env] and [initial]: the converted value of the environment when
    [env_value] finds one, the initial value otherwise. *)
Definition fallback (process_env : gmap string string) (env : option string)
    (initial : value) (v : value) : Prop :=
  match env_value process_env env with
  | Some s => convert s (typeof initial) = inr v
  | None => v = initial
  end.

(** ** The violations that Register checks for *)

(** A flag lacks a description. *)
Definition undescribed (record : Flags) : Prop :=
  ∃ name flag, record !! name = Some flag ∧ Flag.description flag = "".

(** A command lacks a string name, a callable [run], or a flags mapping,
    or one of its flags lacks a description. *)
Definition malformed (c : NewCommand.t) : Prop :=
  NewCommand.name c = None
  ∨ NewCommand.run c = None
  ∨ NewCommand.flags c = FlagsFalsy
  ∨ NewCommand.flags c = FlagsArray
  ∨ ∃ record, NewCommand.flags c = FlagsObject record ∧ undescribed record.

(** Two commands of the list have the same tidy name. *)
Definition clash (commands : list NewCommand.t) : Prop :=
  ∃ i j ci cj ni nj,
    (i < j)%nat
    ∧ commands !! i = Some ci ∧ commands !! j = Some cj
    ∧ NewCommand.name ci = Some ni ∧ NewCommand.name cj = Some nj
    ∧ tidy ni = tidy nj.

(** A command of the list has its tidy name among [names]. *)
Definition taken (names : gset string) (commands : list NewCommand.t) : Prop :=
  ∃ c raw, c ∈ commands ∧ NewCommand.name c = Some raw ∧ tidy raw ∈ names.

(** The tidy names of the commands of a list. *)
Definition tidy_names (commands : list NewCommand.t) : list string :=
  omap (λ c, tidy <$> NewCommand.name c) commands.

(** ** Command, and the commands used in the examples *)

(** [Command(command)] (line 434): the command as [Register] receives it. *)
Definition Command (command : TakeCommand.t) : NewCommand.t :=
  NewCommand.make (Some (TakeCommand.name command))
    (TakeCommand.description command) (TakeCommand.help command)
    (FlagsObject (TakeCommand.flags command)) (Some (TakeCommand.run command)).

Definition silent : CommandInput.t → M unit := λ _, mret tt.

Definition three : number := Decimal false "3" "" None.

(** Commands after those of the README and of the tests. *)
Definition repeat_command : TakeCommand.t :=
  TakeCommand.make "repeat" ["repeat"] "Repeat a message N times" None
    {[ "count" := Flag.make (VNumber three) "Number of repetitions" None ]}
    silent.

Definition build_command : TakeCommand.t :=
  TakeCommand.make "build" ["build"] "Build the project" None
    (<["watch" := Flag.make (VBoolean false) "Watch for changes" None]>
     {[ "output" := Flag.make (VString "dist") "Output directory" (Some "OUT") ]})
    silent.

Definition copy_command : TakeCommand.t :=
  TakeCommand.make "copy" ["copy"] "Copy files to destination" None ∅
    (λ input,
       match CommandInput.args input with
       | [_; _] => mret tt
       | _ => throw (ThrowString "usage: copy <source> <dest>")
       end).

Definition db_command : TakeCommand.t :=
  TakeCommand.make "db" ["db"] "Database tools" None ∅ silent.

Definition db_migrate_command : TakeCommand.t :=
  TakeCommand.make "db migrate" ["db"; "migrate"] "Run database migrations"
    None ∅ silent.

(** A command with a flag that sorts after [help] and shares its letter,
    and two flags that share the letter w. *)
Definition serve_command : TakeCommand.t :=
  TakeCommand.make "serve" ["serve"] "Start server" None
    (<["host" := Flag.make (VString "localhost") "Host name" (Some "HOST")]>
     (<["watch" := Flag.make (VBoolean false) "Watch for changes" None]>
      {[ "workers" := Flag.make (VNumber three) "Worker count" None ]}))
    silent.


(** ** loadEnvFile (lines 144 to 168) *)

Definition LF : ascii := Ascii.ascii_of_nat 10.
Definition CR : ascii := Ascii.ascii_of_nat 13.

(** [content.split("\n")] *)
Fixpoint split_lines (content : string) : list string :=
  match content with
  | EmptyString => [""]
  | String c r =>
      if Ascii.eqb c LF then "" :: split_lines r
      else match split_lines r with
           | line :: lines => String c line :: lines
           | [] => [String c ""]
           end
  end.

(** [s.trim()]: the white space at the end, then at the front. *)
Fixpoint trim_end (s : string) : string :=
  match s with
  | EmptyString => ""
  | String c r =>
      match trim_end r with
      | EmptyString => if Js.is_space c then "" else String c ""
      | r' => String c r'
      end
  end.

Definition trim (s : string) : string := trim_end (Js.drop_spaces s).

(** The text before the first [=] and the text after it. *)
Fixpoint split_eq (s : string) : option (string * string) :=
  match s with
  | EmptyString => None
  | String c r =>
      if Ascii.eqb c "=" then Some ("", r)
      else match split_eq r with
           | Some (k, v) => Some (String c k, v)
           | None => None
           end
  end.

(** The two groups of the regular expression that [trimmed.match] is given
    (line 150): one or more characters other than [=], then [=], then the
    rest, in which the dot matches no line terminator and [$] only the end
    of the string. *)
Definition match_assignment (trimmed : string) : option (string * string) :=
  match split_eq trimmed with
  | Some (k, v) =>
      if nonempty k
         && Js.all_chars (λ c, negb (Ascii.eqb c LF || Ascii.eqb c CR)) v
      then Some (k, v)
      else None
  | None => None
  end.

Fixpoint last_char (s : string) : option ascii :=
  match s with
  | EmptyString => None
  | String c EmptyString => Some c
  | String _ r => last_char r
  end.

Fixpoint drop_last (s : string) : string :=
  match s with
  | EmptyString => ""
  | String _ EmptyString => ""
  | String c r => String c (drop_last r)
  end.

(** [value.startsWith(q) && value.endsWith(q)] *)
Definition wrapped (q : ascii) (value : string) : bool :=
  bool_decide (Js.first_char value = Some q)
  && bool_decide (last_char value = Some q).

Definition squote : ascii := Ascii.ascii_of_nat 39.
Definition dquote_char : ascii := Ascii.ascii_of_nat 34.

(** The removal of the quotes: [value.slice(1, -1)] when both ends carry
    the same quote. *)
Definition unquote (value : string) : string :=
  if wrapped dquote_char value || wrapped squote value then
    match value with
    | EmptyString => ""
    | String _ r => drop_last r
    end
  else value.

(** One turn of [for (const line of content.split("\n"))]. *)
Definition load_line (process_env : gmap string string) (line : string)
  : gmap string string :=
  let trimmed := trim line in
  if negb (nonempty trimmed)
     || bool_decide (Js.first_char trimmed = Some "#"%char)
  then process_env
  else
    match match_assignment trimmed with
    | Some (k, v) => <[trim k := unquote (trim v)]> process_env
    | None => process_env
    end.

Definition load_content (content : string) (process_env : gmap string string)
  : gmap string string :=
  fold_left load_line (split_lines content) process_env.

(** [loadEnvFile(path)]: [file] is the content that [readFile] gives, [None]
    when reading fails; the result is the environment afterwards and the
    boolean returned.  Keys and values are taken to be free of the NUL
    character, which an environment refuses. *)
Definition loadEnvFile (file : option string)
    (process_env : gmap string string) : gmap string string * bool :=
  match file with
  | Some content => (load_content content process_env, true)
  | None => (process_env, false)
  end.

(** [Register] from its first line: the [.env] file is read, then the
    commands are checked and the arguments dispatched. *)
Definition Register_with_file (depth : nat) (commands : list NewCommand.t)
    (file : option string) (process_env : gmap string string)
    (args : list string) : M unit :=
  Register depth commands (loadEnvFile file process_env).1 args.

(** One line of a [.env] file as one writes it. *)
Definition assignment (kv : string * string) : string :=
  kv.1 +:+ "=" +:+ kv.2.

(** No white space at either end. *)
Definition tight (s : string) : Prop :=
  (∀ c, Js.first_char s = Some c → Js.is_space c = false)
  ∧ (∀ c, last_char s = Some c → Js.is_space c = false).

(** A key and a value that [loadEnvFile] reads back as they are: no
    white space at either end and no line break; the key is not empty,
    holds no [=] and does not start a comment; the value is not wrapped
    in a pair of quotes. *)
Definition plain_key (k : string) : Prop :=
  k ≠ "" ∧ tight k ∧ Js.first_char k ≠ Some "#"%char
  ∧ Js.all_chars (λ c, negb (Ascii.eqb c "=" || Ascii.eqb c LF)) k = true.

Definition plain_value (v : string) : Prop :=
  tight v ∧ wrapped dquote_char v = false ∧ wrapped squote v = false
  ∧ Js.all_chars (λ c, negb (Ascii.eqb c LF || Ascii.eqb c CR)) v = true.

(** A line that assigns nothing: blank, a comment, without [=], or with
    nothing before its first [=]. *)
Definition inert (line : string) : Prop :=
  trim line = ""
  ∨ Js.first_char (trim line) = Some "#"%char
  ∨ "="%char ∉ Js.letters (trim line)
  ∨ Js.first_char (trim line) = Some "="%char.

(** ** joinColumns (lines 217 to 226) *)

(** [" ".repeat(n)] *)
Fixpoint spaces (n : nat) : string :=
  match n with
  | O => ""
  | S n' => String " " (spaces n')
  end.

(** [table.reduce((m, { left }) => Math.max(m, left.length), 0)] *)
Definition widest (table : list (string * string)) : nat :=
  fold_left (λ m item, Nat.max m (String.length item.1)) table 0%nat.

(** The text of one row in a table whose widest left column is [max]. *)
Definition column_line (max : nat) (item : string * string) : string :=
  if nonempty item.2 then
    item.1 +:+ spaces (max - String.length item.1) +:+ " " +:+ item.2
  else item.1.

Definition joinColumns (table : list (string * string)) : string :=
  Js.join newline (column_line (widest table) <$> table).

(** ** The checked form of a command *)

(** What the validation loop makes of a command that passes it. *)
Definition checked (c : NewCommand.t) : option TakeCommand.t :=
  match NewCommand.name c, NewCommand.run c, NewCommand.flags c with
  | Some raw, Some run, FlagsObject record =>
      Some (TakeCommand.make (tidy raw) (Js.trim_split raw)
              (NewCommand.description c) (NewCommand.help c) record run)
  | _, _, _ => None
  end.

(** What [input.cmd] is for a handler that [cmd] runs at this depth. *)
Definition reenter (commands : list TakeCommand.t)
    (process_env : gmap string string) (depth : nat)
  : list string → M unit :=
  match depth with
  | O => λ _, ([], Unfinished)
  | S d => cmd commands process_env d
  end.

(** A word: not empty and free of white space. *)
Definition is_word (w : string) : Prop :=
  w ≠ "" ∧ Js.all_chars (λ c, negb (Js.is_space c)) w = true.

(** ** The ways in which the parsing of a command line ends *)

(** [f] is the first flag of [specs] with its name: the one that [find]
    and the loop of default values reach under that name. *)
Definition first_named (specs : namedFlags_t) (f : namedFlag.t) : Prop :=
  ∃ pre post, specs = pre ++ f :: post
              ∧ namedFlag.name f ∉ namedFlag.name <$> pre.

(** Each value is stored under the name of a flag and has the type of the
    initial value of that flag. *)
Definition typed_values (specs : namedFlags_t) (vals : gmap string value)
  : Prop :=
  ∀ k v, vals !! k = Some v →
         ∃ f, first_named specs f ∧ namedFlag.name f = k
              ∧ typeof v = typeof (namedFlag.initial f).

Definition typed_state (specs : namedFlags_t) (st : parse_state) : Prop :=
  typed_values specs (flagVals st)
  ∧ ∀ nf, nextFlag st = Some nf → first_named specs nf.

(** A string thrown by [convert]. *)
Definition conversion_error (e : thrown) : Prop :=
  ∃ val type err, convert val type = inl err ∧ e = ThrowString err.

(** The messages with which [cmd] calls [cmdHelp] while it parses. *)
Definition parse_message (specs : namedFlags_t) (msg : option string) : Prop :=
  msg = None
  ∨ (∃ name, msg = Some ("unknown flag " +:+ quoted name))
  ∨ (∃ f, f ∈ specs
          ∧ msg = Some ("missing value for flag: " +:+ namedFlag.name f)).

(** A step of the parsing returns a result with [P] and prints nothing,
    or throws a conversion error and prints nothing, or ends in the
    Detail view of the command. *)
Definition outcome {A} (c : TakeCommand.t) (specs : namedFlags_t)
    (P : A → Prop) (m : M A) : Prop :=
  (∃ a, P a ∧ m = ([], Returned a))
  ∨ (∃ e, conversion_error e ∧ m = ([], Threw e))
  ∨ (∃ msg, parse_message specs msg ∧ m = helpFor c specs msg).

(** The argument that a handler receives from [cmd] at this depth. *)
Definition input_of (commands : list TakeCommand.t)
    (process_env : gmap string string) (depth : nat) (c : TakeCommand.t)
    (vals : gmap string value) (cargs : list string) : CommandInput.t :=
  CommandInput.make vals cargs (reenter commands process_env depth)
    (TakeCommand.name c) (helpFor c (flagSpecs_of c)).

(** A command with a flag whose initial value is a [Date]. *)
Definition report_command : TakeCommand.t :=
  TakeCommand.make "report" ["report"] "Print a report" None
    {[ "since" := Flag.make (VDate 0) "Start of the period" (Some "SINCE") ]}
    silent.

(** A command with a boolean flag that has a variable. *)
Definition test_command : TakeCommand.t :=
  TakeCommand.make "test" ["test"] "Run the tests" None
    {[ "verbose" := Flag.make (VBoolean false) "Print more" (Some "VERBOSE") ]}
    silent.

(** A token that the loop of [cmd] does not read as a flag. *)
Definition positional (arg : string) : Prop := flag_marker arg = None.

(** The test of [find] for a short token with these letters. *)
Definition short_match (cluster : string) (f : namedFlag.t) : Prop :=
  ∃ l, Js.first_char (namedFlag.name f) = Some l ∧ l ∈ Js.letters cluster.

(** * Properties *)

(** ** The order on strings *)

Lemma ascii_compare_refl (a : ascii) : Ascii.compare a a = Eq.
Proof. unfold Ascii.compare. apply N.compare_refl. Qed.

Lemma ascii_compare_lt_trans (a b c : ascii) :
  Ascii.compare a b = Lt → Ascii.compare b c = Lt → Ascii.compare a c = Lt.
Proof. unfold Ascii.compare. rewrite !N.compare_lt_iff. lia. Qed.

Lemma string_compare_refl (s : string) : String.compare s s = Eq.
Proof. induction s as [|a s IH]; simpl; [done|]. by rewrite ascii_compare_refl. Qed.

Lemma string_compare_lt_trans (a b c : string) :
  String.compare a b = Lt → String.compare b c = Lt → String.compare a c = Lt.
Proof.
  revert b c. induction a as [|x a IH]; intros [|y b] [|z c]; simpl; try done.
  destruct (Ascii.compare x y) eqn:Hxy; try done;
    destruct (Ascii.compare y z) eqn:Hyz; try done; intros Hab Hbc.
  - apply Ascii.compare_eq_iff in Hxy, Hyz. subst.
    rewrite ascii_compare_refl. eauto.
  - apply Ascii.compare_eq_iff in Hxy. subst. by rewrite Hyz.
  - apply Ascii.compare_eq_iff in Hyz. subst. by rewrite Hxy.
  - by rewrite (ascii_compare_lt_trans x y z).
Qed.

Lemma lt_irrefl (s : string) : Js.lt s s = false.
Proof. unfold Js.lt, String.ltb. by rewrite string_compare_refl. Qed.

Lemma lt_trans (a b c : string) :
  Js.lt a b = true → Js.lt b c = true → Js.lt a c = true.
Proof.
  unfold Js.lt, String.ltb. intros Hab Hbc.
  destruct (String.compare a b) eqn:E1; try done.
  destruct (String.compare b c) eqn:E2; try done.
  by rewrite (string_compare_lt_trans a b c).
Qed.

Lemma lt_asym (a b : string) : Js.lt a b = true → Js.lt b a = false.
Proof.
  intros Hab. destruct (Js.lt b a) eqn:Hba; [|done].
  pose proof (lt_trans _ _ _ Hab Hba) as H. by rewrite lt_irrefl in H.
Qed.

Lemma lt_connex (a b : string) :
  Js.lt a b = false → Js.lt b a = false → a = b.
Proof.
  unfold Js.lt, String.ltb. rewrite (String.compare_antisym b a).
  destruct (String.compare a b) eqn:E; simpl; try done.
  intros _ _. by apply String.compare_eq_iff.
Qed.

(** ** Sorting by a string key *)

Section Sorting.

Context {A : Type} (key : A → string).

#[local] Abbreviation key_ltb := (key_ltb key).
#[local] Abbreviation key_le := (key_le key).
#[local] Abbreviation key_lt := (key_lt key).

Lemma key_le_trans (a b c : A) : key_le a b → key_le b c → key_le a c.
Proof.
  unfold key_le. intros Hab Hbc.
  destruct (Js.lt (key c) (key a)) eqn:Hca; [|done].
  destruct (Js.lt (key b) (key c)) eqn:Hbc'.
  - by rewrite (lt_trans _ _ _ Hbc' Hca) in Hab.
  - rewrite (lt_connex _ _ Hbc' Hbc) in Hab. by rewrite Hab in Hca.
Qed.

Lemma insert_sorted_perm (x : A) (l : list A) :
  insert_sorted key_ltb x l ≡ₚ x :: l.
Proof.
  induction l as [|y l IH]; simpl; [done|].
  destruct (key_ltb x y); [done|]. rewrite IH. apply Permutation_swap.
Qed.

Lemma toSorted_perm (l : list A) : toSorted key_ltb l ≡ₚ l.
Proof.
  induction l as [|x l IH]; simpl; [done|].
  unfold toSorted in *. simpl. by rewrite insert_sorted_perm, IH.
Qed.

Lemma insert_sorted_sorted (x : A) (l : list A) :
  StronglySorted key_le l → StronglySorted key_le (insert_sorted key_ltb x l).
Proof.
  induction 1 as [|y l Hl IH Hy]; simpl.
  - repeat constructor.
  - unfold key_ltb at 1. destruct (Js.lt (key x) (key y)) eqn:Hxy.
    + constructor; [by constructor|].
      assert (key_le x y) as Hle by (by apply lt_asym).
      constructor; [done|].
      eapply Forall_impl; [exact Hy|]. intros z Hz. by eapply key_le_trans.
    + constructor; [done|].
      rewrite insert_sorted_perm. by constructor.
Qed.

Lemma toSorted_sorted (l : list A) : StronglySorted key_le (toSorted key_ltb l).
Proof.
  induction l as [|x l IH]; [constructor|].
  by apply insert_sorted_sorted.
Qed.

Lemma sorted_strict (l : list A) :
  NoDup (key <$> l) → StronglySorted key_le l → StronglySorted key_lt l.
Proof.
  induction l as [|x l IH]; intros Hnd Hs; [constructor|].
  apply NoDup_cons in Hnd as [Hx Hnd]. apply StronglySorted_inv in Hs as [Hs Hall].
  constructor; [by apply IH|].
  apply Forall_forall. intros y Hy.
  rewrite Forall_forall in Hall. specialize (Hall y Hy).
  unfold key_lt, key_le in *.
  destruct (Js.lt (key x) (key y)) eqn:Hxy; [done|].
  exfalso. apply Hx. rewrite (lt_connex _ _ Hxy Hall).
  by apply list_elem_of_fmap_2.
Qed.

Lemma toSorted_strict (l : list A) :
  NoDup (key <$> l) → StronglySorted key_lt (toSorted key_ltb l).
Proof.
  intros Hnd. apply sorted_strict; [|apply toSorted_sorted].
  by rewrite toSorted_perm.
Qed.

End Sorting.

(** ** Stage 1: the command resolver *)

Section Resolver.

Context (commands : list TakeCommand.t) (process_env : gmap string string).

(** The test of [commands.find] in the resolver. *)
Abbreviation named name := (λ c, String.eqb (TakeCommand.name c) name).

Lemma find_named_Some (name : string) (c : TakeCommand.t) :
  List.find (named name) commands = Some c →
  c ∈ commands ∧ TakeCommand.name c = name.
Proof.
  intros H. apply List.find_some in H as [Hin Heq].
  split; [by apply list_elem_of_In|]. by apply String.eqb_eq.
Qed.

Lemma find_named_None (name : string) :
  List.find (named name) commands = None ↔
  ∀ c, c ∈ commands → TakeCommand.name c ≠ name.
Proof.
  split.
  - intros H c Hc. apply String.eqb_neq.
    apply (List.find_none _ _ H). by apply list_elem_of_In.
  - intros H. destruct (List.find (named name) commands) as [c|] eqn:E; [|done].
    apply find_named_Some in E as [Hc Hn]. by destruct (H c Hc).
Qed.

Lemma resolve_from_Some (args : list string) (n : nat) c rest :
  resolve_from commands args n = Some (c, rest) →
  ∃ k, (1 ≤ k ≤ n)%nat
       ∧ List.find (named (Js.join " " (take k args))) commands = Some c
       ∧ rest = drop k args
       ∧ ∀ j, (k < j ≤ n)%nat →
              List.find (named (Js.join " " (take j args))) commands = None.
Proof.
  induction n as [|i IH]; simpl; [done|].
  destruct (List.find _ commands) as [c'|] eqn:E.
  - intros [= -> <-]. exists (S i). repeat split; try done; try lia.
  - intros H. destruct (IH H) as (k & Hk & Hf & Hr & Hj).
    exists k. repeat split; try done; try lia.
    intros j Hj'. destruct (decide (j = S i)) as [->|]; [done|].
    apply Hj. lia.
Qed.

Lemma resolve_from_None (args : list string) (n : nat) :
  resolve_from commands args n = None ↔
  ∀ k, (1 ≤ k ≤ n)%nat →
       List.find (named (Js.join " " (take k args))) commands = None.
Proof.
  induction n as [|i IH]; simpl.
  - split; [intros _ k ?; lia|done].
  - destruct (List.find _ commands) as [c'|] eqn:E.
    + split; [done|]. intros H. rewrite (H (S i)) in E; [done|lia].
    + rewrite IH. split.
      * intros H k Hk. destruct (decide (k = S i)) as [->|]; [done|].
        apply H. lia.
      * intros H k Hk. apply H. lia.
Qed.

(** With no command found, [cmd] is the Overview with the error. *)
Lemma cmd_unresolved (depth : nat) (args : list string) :
  args ≠ [] →
  resolve commands args = None →
  cmd commands process_env depth args
  = help commands process_env (Some ("no matched command: " +:+ Js.join " " args)).
Proof.
  intros Hne Hres. destruct depth; simpl; unfold cmd_body; rewrite Hres;
    by destruct args.
Qed.

(** C1.  For a non-empty token list the resolver returns the command
    whose name is the longest prefix of the tokens (joined by single
    spaces) that is a registered name, together with the tokens after
    that prefix; it finds a command whenever some prefix is a registered
    name; with pairwise distinct names the command is the only one of
    that name; and when no prefix is a registered name, [cmd] prints the
    Overview with the error "no matched command: " followed by all the
    tokens and exits with code 1.  With "db migrate" registered (and
    nothing registered under "db migrate x"), the tokens db, migrate, x
    resolve to "db migrate" with x remaining. *)
Theorem resolve_longest_prefix (args : list string) :
  args ≠ [] →
  (∀ c rest, resolve commands args = Some (c, rest) →
     ∃ k, (1 ≤ k ≤ length args)%nat
          ∧ c ∈ commands
          ∧ TakeCommand.name c = Js.join " " (take k args)
          ∧ rest = drop k args
          ∧ (∀ j c', (k < j ≤ length args)%nat → c' ∈ commands →
                     TakeCommand.name c' ≠ Js.join " " (take j args))
          ∧ (NoDup (TakeCommand.name <$> commands) →
             ∀ c', c' ∈ commands →
                   TakeCommand.name c' = Js.join " " (take k args) → c' = c))
  ∧ (∀ k c', (1 ≤ k ≤ length args)%nat → c' ∈ commands →
             TakeCommand.name c' = Js.join " " (take k args) →
             is_Some (resolve commands args))
  ∧ (resolve commands args = None →
     ∀ depth,
       cmd commands process_env depth args
       = ([Overview (listed commands process_env);
           ErrorLine ("no matched command: " +:+ Js.join " " args);
           BlankLine],
          Exited 1))
  ∧ (∀ c', c' ∈ commands → TakeCommand.name c' = "db migrate" →
     (∀ c'', c'' ∈ commands → TakeCommand.name c'' ≠ "db migrate x") →
     ∃ c, resolve commands ["db"; "migrate"; "x"] = Some (c, ["x"])
          ∧ TakeCommand.name c = "db migrate").
Proof.
  intros Hne. repeat split.
  - intros c rest H. apply resolve_from_Some in H as (k & Hk & Hf & Hr & Hj).
    apply find_named_Some in Hf as [Hc Hn].
    exists k. repeat split; try done; try lia.
    + intros j c' Hj' Hc'. eapply find_named_None; [by apply Hj|done].
    + intros Hnd c' Hc' Hn'.
      apply list_elem_of_lookup in Hc as [i Hi], Hc' as [i' Hi'].
      assert (i' = i) as ->; [|congruence].
      eapply NoDup_lookup; [exact Hnd| |].
      * by rewrite list_lookup_fmap, Hi'.
      * rewrite list_lookup_fmap, Hi. simpl. congruence.
  - intros k c' Hk Hc' Hn.
    destruct (resolve commands args) as [r|] eqn:E; [done|].
    unfold resolve in E. rewrite resolve_from_None in E.
    specialize (E k Hk). rewrite find_named_None in E. by destruct (E c' Hc').
  - intros Hres depth. rewrite cmd_unresolved by done.
    unfold help. by destruct (Js.join " " args).
  - intros c' Hc' Hn Hlong.
    unfold resolve. simpl.
    change ("db" +:+ " " +:+ "migrate" +:+ " " +:+ "x") with "db migrate x".
    change ("db" +:+ " " +:+ "migrate") with "db migrate".
    destruct (List.find (named "db migrate x") commands) as [c0|] eqn:E0.
    { apply find_named_Some in E0 as [Hc0 Hn0]. by destruct (Hlong c0 Hc0). }
    destruct (List.find (named "db migrate") commands) as [c|] eqn:E.
    + apply find_named_Some in E as [_ Hc]. by exists c.
    + rewrite find_named_None in E. by destruct (E c' Hc').
Qed.

End Resolver.

(** ** The effect monad *)

Lemma bind_Returned {A B} (m : M A) (k : A → M B) out (b : B) :
  m ≫= k = (out, Returned b) →
  ∃ out1 a out2,
    m = (out1, Returned a) ∧ k a = (out2, Returned b) ∧ out = out1 ++ out2.
Proof.
  destruct m as [out1 [a| | | |]]; unfold mbind, M_bind; try done.
  destruct (k a) as [out2 e] eqn:Hk. intros [= <- ->]. by exists out1, a, out2.
Qed.

Lemma bind_Exited {A B} (k : A → M B) out code :
  (out, Exited code) ≫= k = (out, Exited code).
Proof. done. Qed.



Lemma bind_ret {A B} (a : A) (k : A → M B) : mret a ≫= k = k a.
Proof. unfold mret, M_ret, mbind, M_bind. by destruct (k a). Qed.

Lemma bind_nil {A B} (a : A) (k : A → M B) :
  (([], Returned a) : M A) ≫= k = k a.
Proof. apply bind_ret. Qed.

(** ** The exit codes of the two help printers *)

Lemma help_ended {A} commands process_env (msg : option string) :
  ended (@help commands process_env A msg)
  = Exited (if given msg then 1 else 0).
Proof. by destruct msg as [[|]|]. Qed.

Lemma helpFor_ended {A} c flagSpecs (msg : option string) :
  ended (@helpFor A c flagSpecs msg) = Exited 0.
Proof. by destruct msg as [[|]|]. Qed.

Lemma helpFor_printed {A} c flagSpecs (msg : option string) :
  printed (@helpFor A c flagSpecs msg)
  = Detail (TakeCommand.name c) (flag_rows ∅ flagSpecs)
    :: (if given msg then [ErrorLine (default "" msg); BlankLine] else []).
Proof. by destruct msg as [[|]|]. Qed.

(** C2.  The Overview exits with code 1 exactly when it is given a
    message, but the Detail view exits with code 0 whether or not it
    prints an error: an unknown flag, a missing flag value and a string
    thrown by a handler each print the error and end the process with
    code 0. *)
Theorem detail_help_error_exits_0 :
  (∀ commands process_env msg,
     ended (@help commands process_env unit msg)
     = Exited (if given msg then 1 else 0))
  ∧ (∀ c flagSpecs msg, ended (@helpFor unit c flagSpecs msg) = Exited 0)
  ∧ (let run := Register 0 [Command repeat_command] ∅ ["repeat"; "--bogus"] in
     ErrorLine ("unknown flag " +:+ quoted "bogus") ∈ printed run
     ∧ ended run = Exited 0)
  ∧ (let run := Register 0 [Command repeat_command] ∅ ["repeat"; "--count"] in
     ErrorLine "missing value for flag: count" ∈ printed run
     ∧ ended run = Exited 0)
  ∧ (let run := Register 0 [Command copy_command] ∅ ["copy"; "file.txt"] in
     ErrorLine "usage: copy <source> <dest>" ∈ printed run
     ∧ ended run = Exited 0)
  ∧ (let run := Register 0 [Command repeat_command] ∅ ["repeta"] in
     ErrorLine "no matched command: repeta" ∈ printed run
     ∧ ended run = Exited 1).
Proof.
  split; [intros; apply help_ended|].
  split; [intros; apply helpFor_ended|].
  repeat split; vm_compute; repeat constructor.
Qed.

(** ** namedFlags: the sorted flag list *)

Lemma namedFlags_perm (record : Flags) :
  namedFlags record ≡ₚ name_flag <$> map_to_list record.
Proof. apply toSorted_perm. Qed.

Lemma namedFlags_names (record : Flags) :
  namedFlag.name <$> namedFlags record ≡ₚ (map_to_list record).*1.
Proof.
  by rewrite namedFlags_perm, <- list_fmap_compose.
Qed.

Lemma namedFlags_NoDup (record : Flags) :
  NoDup (namedFlag.name <$> namedFlags record).
Proof. rewrite namedFlags_names. apply NoDup_fst_map_to_list. Qed.

Lemma namedFlags_sorted (record : Flags) :
  StronglySorted (key_lt namedFlag.name) (namedFlags record).
Proof.
  apply toSorted_strict.
  rewrite <- list_fmap_compose.
  replace (namedFlag.name ∘ name_flag) with (@fst string Flag.t) by done.
  apply NoDup_fst_map_to_list.
Qed.

Lemma elem_of_namedFlags (record : Flags) (f : namedFlag.t) :
  f ∈ namedFlags record ↔
  ∃ flag, record !! namedFlag.name f = Some flag
          ∧ f = name_flag (namedFlag.name f, flag).
Proof.
  rewrite namedFlags_perm, list_elem_of_fmap. split.
  - intros [[n flag] [-> Hin]]. apply elem_of_map_to_list in Hin. by exists flag.
  - intros [flag [Hl Hf]]. exists (namedFlag.name f, flag).
    split; [done|]. by apply elem_of_map_to_list.
Qed.

Lemma declared_in_namedFlags (record : Flags) name flag :
  record !! name = Some flag → name_flag (name, flag) ∈ namedFlags record.
Proof. intros H. apply elem_of_namedFlags. by exists flag. Qed.

(** ** find *)

Lemma find_split {A} (p : A → bool) (l : list A) (x : A) :
  List.find p l = Some x →
  ∃ pre post, l = pre ++ x :: post ∧ p x = true ∧ ∀ y, y ∈ pre → p y = false.
Proof.
  induction l as [|y l IH]; simpl; [done|].
  destruct (p y) eqn:Hy.
  - intros [= ->]. exists [], l. repeat split; [done|]. by intros ? ?%elem_of_nil.
  - intros H. destruct (IH H) as (pre & post & -> & Hx & Hpre).
    exists (y :: pre), post. repeat split; [done|].
    intros z [->|Hz]%elem_of_cons; auto.
Qed.

Lemma find_first {A} (p : A → bool) (pre : list A) (x : A) (post : list A) :
  p x = true → (∀ y, y ∈ pre → p y = false) →
  List.find p (pre ++ x :: post) = Some x.
Proof.
  intros Hx. induction pre as [|y pre IH]; simpl; intros Hpre.
  - by rewrite Hx.
  - rewrite (Hpre y) by left. apply IH. intros z Hz. apply Hpre. by right.
Qed.



(** ** The short aliases of the Detail view *)

Lemma flag_rows_flags shorts (l : namedFlags_t) : (flag_rows shorts l).*2 = l.
Proof.
  revert shorts. induction l as [|f l IH]; intros shorts; simpl; [done|].
  destruct (short shorts (namedFlag.name f)) as [alias shorts']. simpl.
  by rewrite IH.
Qed.

Lemma flag_rows_lookup shorts (pre : namedFlags_t) f (post : namedFlags_t) :
  flag_rows shorts (pre ++ f :: post) !! length pre
  = Some (left_column
            (if decide (Js.first_char (namedFlag.name f) ∈ shorts
                        ∨ Js.first_char (namedFlag.name f) ∈ firsts pre)
             then "" else alias_text (Js.first_char (namedFlag.name f))) f,
          f).
Proof.
  revert shorts. induction pre as [|g pre IH]; intros shorts; simpl.
  - unfold short. destruct (decide (_ ∈ shorts)) as [Hin|Hin]; simpl.
    + by rewrite decide_True by by left.
    + rewrite decide_False; [done|]. intros [?|?%elem_of_nil]; done.
  - destruct (short shorts (namedFlag.name g)) as [alias shorts'] eqn:Hs.
    simpl. rewrite IH. do 3 f_equal.
    unfold short in Hs. apply decide_ext.
    rewrite elem_of_cons.
    destruct (decide (_ ∈ shorts)) as [Hin|Hin]; simplify_eq.
    + split; [tauto|]. intros [?|[->|?]]; auto.
    + rewrite elem_of_union, elem_of_singleton. tauto.
Qed.

Lemma flagSpecs_of_split (c : TakeCommand.t) pre f post :
  namedFlags (TakeCommand.flags c) = pre ++ f :: post →
  flagSpecs_of c = pre ++ f :: (post ++ [help_flag]).
Proof. unfold flagSpecs_of. intros ->. by rewrite <- app_assoc. Qed.

(** C6, as the code has it.  The Detail view lists the declared flags in
    ascending order of their names and then the implicit help flag.  In
    that order of rendering, a flag none of whose predecessors has the
    same first letter is rendered with the alias made of its first letter,
    and any later flag with the same first letter is rendered without an
    alias; so a letter is the alias of at most one flag.  For [serve_command],
    with the flags host, watch and workers: watch takes -w, workers has no
    alias. *)
Theorem detail_help_aliases (c : TakeCommand.t) :
  let declared := namedFlags (TakeCommand.flags c) in
  let rows := flag_rows ∅ (flagSpecs_of c) in
  rows.*2 = declared ++ [help_flag]
  ∧ StronglySorted (key_lt namedFlag.name) declared
  ∧ (∀ f, f ∈ declared ↔
          ∃ flag, TakeCommand.flags c !! namedFlag.name f = Some flag
                  ∧ f = name_flag (namedFlag.name f, flag))
  ∧ (∀ pre f post,
       declared ++ [help_flag] = pre ++ f :: post →
       Js.first_char (namedFlag.name f) ∉ firsts pre →
       rows !! length pre
       = Some (left_column (alias_text (Js.first_char (namedFlag.name f))) f, f))
  ∧ (∀ pre f post,
       declared ++ [help_flag] = pre ++ f :: post →
       Js.first_char (namedFlag.name f) ∈ firsts pre →
       rows !! length pre = Some (left_column "" f, f))
  ∧ (flag_rows ∅ (flagSpecs_of serve_command)).*1
    = [" --host, -h <string>"; " --watch, -w"; " --workers <number>"; " --help"].
Proof.
  intros declared rows.
  repeat match goal with |- _ ∧ _ => split end; [..|by vm_compute].
  - apply flag_rows_flags.
  - apply namedFlags_sorted.
  - intros f. apply elem_of_namedFlags.
  - intros pre f post Heq Hnew. subst rows. unfold flagSpecs_of.
    fold declared. rewrite Heq, flag_rows_lookup.
    rewrite decide_False; [done|]. intros [?%elem_of_empty|?]; done.
  - intros pre f post Heq Hold. subst rows. unfold flagSpecs_of.
    fold declared. rewrite Heq, flag_rows_lookup.
    by rewrite decide_True by by right.
Qed.

(** C6 as stated fails: the rendered list is not in order of names when
    a declared flag sorts after help.  For [serve_command] the rows are
    host, watch, workers, help, and host, not the alphabetically earlier
    help, carries -h. *)
Lemma detail_help_not_sorted :
  let rows := flag_rows ∅ (flagSpecs_of serve_command) in
  namedFlag.name <$> rows.*2 = ["host"; "watch"; "workers"; "help"]
  ∧ rows.*1 = [" --host, -h <string>"; " --watch, -w"; " --workers <number>";
               " --help"]
  ∧ Js.lt "help" "host" = true
  ∧ ¬ Sorted (key_le namedFlag.name) rows.*2.
Proof.
  assert (flagSpecs_of serve_command
          = [name_flag ("host", Flag.make (VString "localhost") "Host name" (Some "HOST"));
             name_flag ("watch", Flag.make (VBoolean false) "Watch for changes" None);
             name_flag ("workers", Flag.make (VNumber three) "Worker count" None);
             help_flag]) as Heq by (vm_compute; reflexivity).
  intros rows. subst rows. rewrite Heq.
  split; [by vm_compute|]. split; [by vm_compute|]. split; [by vm_compute|].
  rewrite flag_rows_flags. intros Hs.
  do 2 apply Sorted_inv in Hs as [Hs _].
  apply Sorted_inv in Hs as [_ Hs]. apply HdRel_inv in Hs. by vm_compute in Hs.
Qed.

(** ** The short token -h *)

(** The test of [flagSpecs.find] for the short token [-h]. *)
Lemma assign_other (name : string) (v : value) (vals : gmap string value) :
  name ≠ "__proto__" → assign name v vals = <[name := v]> vals.
Proof. intros Hne. unfold assign. by rewrite (proj2 (String.eqb_neq _ _) Hne). Qed.


Lemma not_inherited_other (name : string) :
  name ∉ Object_prototype → name ≠ "__proto__".
Proof. intros Hnot ->. apply Hnot. by vm_compute; repeat constructor. Qed.



(** ** Stage 2: the loop over the remaining arguments *)

Lemma parse_args_cons cmdHelp flagSpecs st arg rest :
  parse_args cmdHelp flagSpecs st (arg :: rest)
  = parse_arg cmdHelp flagSpecs st arg ≫= λ st', parse_args cmdHelp flagSpecs st' rest.
Proof. done. Qed.

Lemma parse_arg_marker cmdHelp flagSpecs vals cargs tok long name fs :
  flag_marker tok = Some (long, name) →
  find_flag flagSpecs long name = Some fs →
  parse_arg cmdHelp flagSpecs (ParseState vals cargs None) tok
  = mret (if is_boolean (namedFlag.initial fs)
          then ParseState (assign (namedFlag.name fs) (VBoolean true) vals)
                          cargs None
          else ParseState vals cargs (Some fs)).
Proof.
  intros Hm Hf. unfold parse_arg. simpl. rewrite Hm, Hf.
  by destruct (is_boolean _).
Qed.




(** ** convert *)

Lemma convert_number (val : string) :
  convert val "number"
  = if isNaN (parseFloat val) then inl ("expected a number, got: " +:+ val)
    else inr (VNumber (parseFloat val)).
Proof. done. Qed.

Lemma convert_unknown (val type : string) :
  type ≠ "string" → type ≠ "number" → type ≠ "boolean" →
  convert val type = inl ("unknown type: " +:+ type).
Proof.
  intros H1 H2 H3. unfold convert.
  by rewrite (proj2 (String.eqb_neq _ _) H1), (proj2 (String.eqb_neq _ _) H2),
    (proj2 (String.eqb_neq _ _) H3).
Qed.

(** C7.  Converting a token to a number fails exactly when [parseFloat]
    of the token is not a number, and the error then is "expected a
    number, got: " followed by the token itself; otherwise the result is
    the parsed number.  This is what the loop does with the token that
    follows the marker of a number flag.  Converting to a string never
    fails and a type other than string, number and boolean gives the
    error "unknown type: " followed by the type.  For [repeat_command], whose
    count defaults to 3, the arguments --count abc throw "expected a
    number, got: abc". *)
Theorem number_conversion_error (val : string) :
  (convert val "number" = inl ("expected a number, got: " +:+ val)
   ↔ isNaN (parseFloat val) = true)
  ∧ (∀ err, convert val "number" = inl err →
            err = "expected a number, got: " +:+ val)
  ∧ (isNaN (parseFloat val) = false →
     convert val "number" = inr (VNumber (parseFloat val)))
  ∧ (∀ cmdHelp flagSpecs vals cargs nf,
       typeof (namedFlag.initial nf) = "number" →
       parse_arg cmdHelp flagSpecs (ParseState vals cargs (Some nf)) val
       = if isNaN (parseFloat val)
         then throw (ThrowString ("expected a number, got: " +:+ val))
         else mret (ParseState
                      (assign (namedFlag.name nf) (VNumber (parseFloat val)) vals)
                      cargs None))
  ∧ convert val "string" = inr (VString val)
  ∧ (∀ type, type ≠ "string" → type ≠ "number" → type ≠ "boolean" →
             convert val type = inl ("unknown type: " +:+ type))
  ∧ parseFloat "abc" = NaN
  ∧ command_line repeat_command ["--count"; "abc"]
    = throw (ThrowString "expected a number, got: abc").
Proof.
  repeat match goal with |- _ ∧ _ => split end.
  - rewrite convert_number. by destruct (isNaN _).
  - intros err. rewrite convert_number. destruct (isNaN _); congruence.
  - intros H. by rewrite convert_number, H.
  - intros cmdHelp flagSpecs vals cargs nf Hty. unfold parse_arg. simpl.
    rewrite Hty, convert_number. by destruct (isNaN _).
  - done.
  - intros type. apply convert_unknown.
  - done.
  - by vm_compute.
Qed.

(** ** The default values *)

Section Defaults.

Context (process_env : gmap string string).

Lemma env_value_Some (e s : string) :
  env_value process_env (Some e) = Some s
  ↔ e ≠ "" ∧ process_env !! e = Some s ∧ s ≠ "".
Proof.
  unfold env_value. destruct e as [|a e]; simpl.
  - split; [done|]. by intros [? _].
  - destruct (process_env !! String a e) as [[|b t]|]; simpl.
    + split; [done|]. by intros (_ & [= <-] & ?).
    + split; [intros [= <-]; by repeat split|]. by intros (_ & [= <-] & _).
    + split; [done|]. by intros (_ & ? & _).
Qed.

Lemma has_property_true (name : string) (vals : gmap string value) :
  has_property name vals = true
  ↔ is_Some (vals !! name) ∨ name ∈ Object_prototype.
Proof. apply bool_decide_eq_true. Qed.

Lemma has_property_false (name : string) (vals : gmap string value) :
  has_property name vals = false
  ↔ vals !! name = None ∧ name ∉ Object_prototype.
Proof.
  unfold has_property. rewrite bool_decide_eq_false. split.
  - intros Hnot. split; [|tauto].
    destruct (vals !! name) eqn:Hv; [|done]. destruct Hnot. left. eauto.
  - intros [Hnone Hnot] [[v Hv]|Hin]; [congruence|done].
Qed.

Lemma set_default_Returned vals f out vals' :
  set_default process_env vals f = (out, Returned vals') →
  out = []
  ∧ (∀ k v, vals !! k = Some v → vals' !! k = Some v)
  ∧ (∀ k, k ≠ namedFlag.name f → vals' !! k = vals !! k)
  ∧ (vals !! namedFlag.name f = None →
     namedFlag.name f ∉ Object_prototype →
     ∃ v, vals' !! namedFlag.name f = Some v
          ∧ fallback process_env (namedFlag.env f) (namedFlag.initial f) v)
  ∧ (namedFlag.name f ∈ Object_prototype → vals' = vals).
Proof.
  unfold set_default, fallback.
  destruct (has_property (namedFlag.name f) vals) eqn:Hhas.
  { intros [= <- <-]. apply has_property_true in Hhas.
    repeat split; try done. intros Hnone Hnot.
    destruct Hhas as [[w Hw]|Hin]; [congruence|done]. }
  apply has_property_false in Hhas as [Hnone Hnot].
  pose proof (not_inherited_other _ Hnot) as Hne.
  assert (∀ v, (∀ k w, vals !! k = Some w →
                       <[namedFlag.name f := v]> vals !! k = Some w)) as Hkeep.
  { intros v k w Hk. rewrite lookup_insert_ne; [done|]. congruence. }
  destruct (env_value process_env (namedFlag.env f)) as [s|].
  - destruct (convert s _) as [err|v] eqn:Hc; [done|].
    rewrite assign_other by done.
    intros [= <- <-]. repeat split; auto.
    + intros k Hk. by rewrite lookup_insert_ne.
    + intros _ _. exists v. by rewrite lookup_insert_eq.
    + done.
  - rewrite assign_other by done.
    intros [= <- <-]. repeat split; auto.
    + intros k Hk. by rewrite lookup_insert_ne.
    + intros _ _. eexists. by rewrite lookup_insert_eq.
    + done.
Qed.

Lemma set_defaults_Returned flagSpecs : ∀ vals out vals',
  set_defaults process_env vals flagSpecs = (out, Returned vals') →
  out = []
  ∧ (∀ k v, vals !! k = Some v → vals' !! k = Some v)
  ∧ (∀ pre f post,
       flagSpecs = pre ++ f :: post →
       vals !! namedFlag.name f = None →
       namedFlag.name f ∉ Object_prototype →
       namedFlag.name f ∉ namedFlag.name <$> pre →
       ∃ v, vals' !! namedFlag.name f = Some v
            ∧ fallback process_env (namedFlag.env f) (namedFlag.initial f) v)
  ∧ (∀ k, k ∈ Object_prototype → vals' !! k = vals !! k).
Proof.
  induction flagSpecs as [|g rest IH]; intros vals out vals'; simpl.
  - intros [= <- <-]. split; [done|]. split; [done|]. split; [|done].
    by intros [|??] ??.
  - intros H. apply bind_Returned in H as (out1 & vals1 & out2 & H1 & H2 & ->).
    apply set_default_Returned in H1 as (-> & Hkeep1 & Hother1 & Hnew1 & Hsame1).
    apply IH in H2 as (-> & Hkeep2 & Hfirst2 & Hsame2).
    split; [done|]. split; [by auto|]. split.
    + intros [|g' pre] f post Heq Hnone Hnot Hpre; simplify_eq/=.
      * destruct (Hnew1 Hnone Hnot) as (v & Hv & Hfb). exists v. auto.
      * apply (Hfirst2 pre f post); [done| |done|].
        -- rewrite Hother1; [done|]. intros Heq. apply Hpre. rewrite Heq. by left.
        -- intros Hin. apply Hpre. by right.
    + intros k Hk. rewrite (Hsame2 k Hk).
      destruct (decide (k = namedFlag.name g)) as [->|Hne].
      * by rewrite (Hsame1 Hk).
      * by apply Hother1.
Qed.

End Defaults.

Lemma helpFor_never_returns {A} c flagSpecs msg out (a : A) :
  @helpFor A c flagSpecs msg ≠ (out, Returned a).
Proof. by destruct msg as [[|]|]. Qed.

Lemma parse_arg_Returned c flagSpecs st arg out st' :
  parse_arg (λ A, @helpFor A c flagSpecs) flagSpecs st arg = (out, Returned st') →
  out = [].
Proof.
  unfold parse_arg. destruct (nextFlag st) as [nf|].
  - destruct (convert arg _); [done|]. by intros [= <- _].
  - destruct (flag_marker arg) as [[long name]|]; [|by intros [= <- _]].
    destruct (find_flag flagSpecs long name) as [fs|].
    + destruct (is_boolean _); by intros [= <- _].
    + intros H. by apply helpFor_never_returns in H.
Qed.

Lemma parse_args_Returned c flagSpecs rest : ∀ st out st',
  parse_args (λ A, @helpFor A c flagSpecs) flagSpecs st rest = (out, Returned st') →
  out = [].
Proof.
  induction rest as [|arg rest IH]; intros st out st'; simpl.
  - by intros [= <- _].
  - intros H. apply bind_Returned in H as (out1 & st1 & out2 & H1 & H2 & ->).
    apply parse_arg_Returned in H1 as ->. by apply IH in H2 as ->.
Qed.

(** A returning [parse]: the loop returned with no pending flag, and the
    defaults were set from its flag values. *)
Lemma parse_Returned process_env c rest out vals cargs :
  parse process_env c rest = (out, Returned (vals, cargs)) →
  ∃ st, command_line c rest = ([], Returned st)
        ∧ nextFlag st = None
        ∧ cargs = cmdArgs st
        ∧ set_defaults process_env (flagVals st) (flagSpecs_of c)
          = ([], Returned vals).
Proof.
  unfold parse. intros H.
  apply bind_Returned in H as (out1 & st & out2 & H1 & H2 & ->).
  pose proof H1 as ->%parse_args_Returned.
  apply bind_Returned in H2 as (out3 & [] & out4 & H3 & H4 & ->).
  apply bind_Returned in H4 as (out5 & [] & out6 & H5 & H6 & ->).
  apply bind_Returned in H6 as (out7 & vals7 & out8 & H7 & H8 & ->).
  injection H8 as <- <- <-.
  exists st. split; [done|]. split; [|split; [done|]].
  - destruct (nextFlag st); [|done]. by apply helpFor_never_returns in H3.
  - pose proof H7 as (-> & _)%set_defaults_Returned. done.
Qed.

Lemma declared_first (c : TakeCommand.t) name flag :
  TakeCommand.flags c !! name = Some flag →
  ∃ pre post,
    flagSpecs_of c = pre ++ name_flag (name, flag) :: post
    ∧ name ∉ namedFlag.name <$> pre.
Proof.
  intros Hflag. pose proof (declared_in_namedFlags _ _ _ Hflag) as Hin.
  apply list_elem_of_split in Hin as (pre & post & Hsplit).
  exists pre, (post ++ [help_flag]). split; [by apply flagSpecs_of_split|].
  pose proof (namedFlags_NoDup (TakeCommand.flags c)) as Hnd.
  rewrite Hsplit, fmap_app, fmap_cons in Hnd.
  apply NoDup_app in Hnd as (_ & Hnd & _).
  intros Hin. apply (Hnd name Hin). by left.
Qed.

(** The value of each declared flag after a returning [parse]. *)
Lemma parse_flag_values (process_env : gmap string string)
    (c : TakeCommand.t) (rest : list string) (out : list output)
    (vals : gmap string value) (cargs : list string) :
  parse process_env c rest = (out, Returned (vals, cargs)) →
  ∃ st,
    command_line c rest = ([], Returned st)
    ∧ cargs = cmdArgs st
    ∧ (∀ name flag,
         TakeCommand.flags c !! name = Some flag →
         (name ∉ Object_prototype →
          ∃ v, vals !! name = Some v
               ∧ match flagVals st !! name with
                 | Some explicit => v = explicit
                 | None =>
                     fallback process_env (Flag.env flag) (Flag.initial flag) v
                 end)
         ∧ (name ∈ Object_prototype → vals !! name = flagVals st !! name)).
Proof.
  intros H. apply parse_Returned in H as (st & Hcl & _ & -> & Hdef).
  exists st. split; [done|]. split; [done|]. intros name flag Hflag. split.
  - intros Hnot.
    apply set_defaults_Returned in Hdef as (_ & Hkeep & Hfirst & _).
    destruct (flagVals st !! name) as [explicit|] eqn:Hcl'.
    + exists explicit. split; [by apply Hkeep|done].
    + destruct (declared_first c name flag Hflag) as (pre & post & Hsplit & Hpre).
      by apply (Hfirst pre (name_flag (name, flag)) post).
  - intros Hin.
    apply set_defaults_Returned in Hdef as (_ & _ & _ & Hsame). by apply Hsame.
Qed.




(** ** An empty environment variable *)






(** ** Requests for help *)






(** ** Register: the validation loop *)

Lemma validate_flags_cons cname name flag rest :
  validate_flags cname ((name, flag) :: rest)
  = ((if nonempty (Flag.description flag) then mret tt
      else exit ("command " +:+ quoted cname +:+ " flag " +:+ quoted name
                 +:+ " must have a " +:+ quoted "description"));;
     validate_flags cname rest).
Proof. done. Qed.

Lemma validate_commands_cons names c rest :
  validate_commands names (c :: rest)
  = (tc ← validate_command names c;
     tcs ← validate_commands ({[TakeCommand.name tc]} ∪ names) rest;
     mret (tc :: tcs)).
Proof. done. Qed.

Lemma validate_flags_spec cname entries :
  (validate_flags cname entries = ([], Returned tt)
   ∧ ∀ name flag, (name, flag) ∈ entries → Flag.description flag ≠ "")
  ∨ (∃ text, validate_flags cname entries = ([Line text], Exited 1))
     ∧ ∃ name flag, (name, flag) ∈ entries ∧ Flag.description flag = "".
Proof.
  induction entries as [|[name flag] rest IH].
  - left. split; [done|]. by intros ?? ?%elem_of_nil.
  - rewrite validate_flags_cons.
    destruct (Flag.description flag) as [|a d] eqn:Hd; cbn [nonempty].
    + right. split; [by eexists|]. exists name, flag. split; [by left|done].
    + rewrite bind_ret. destruct IH as [[-> Hall]|[Hexit (n & f & Hin & Hf)]].
      * left. split; [done|]. intros n f [[= -> ->]|Hin]%elem_of_cons.
        -- by rewrite Hd.
        -- by eapply Hall.
      * right. split; [done|]. exists n, f. split; [by right|done].
Qed.

(** Either the command passes and its tidy name is new, or the process
    ends with code 1 and the command is malformed or its name is taken. *)
Lemma validate_command_spec (names : gset string) (c : NewCommand.t) :
  (∃ raw run record,
     NewCommand.name c = Some raw
     ∧ NewCommand.run c = Some run
     ∧ NewCommand.flags c = FlagsObject record
     ∧ (tidy raw ∉ names)
     ∧ ¬ malformed c
     ∧ validate_command names c
       = ([], Returned (TakeCommand.make (tidy raw) (Js.trim_split raw)
                          (NewCommand.description c) (NewCommand.help c)
                          record run)))
  ∨ ((∃ text, validate_command names c = ([Line text], Exited 1))
     ∧ (malformed c
        ∨ ∃ raw, NewCommand.name c = Some raw ∧ tidy raw ∈ names)).
Proof.
  unfold validate_command, malformed.
  destruct (NewCommand.name c) as [raw|] eqn:Hname;
    [|right; split; [by eexists|by left; left]].
  fold (tidy raw). destruct (decide (tidy raw ∈ names)) as [Hin|Hnew];
    [right; split; [by eexists|right; by exists raw]|].
  destruct (NewCommand.run c) as [run|] eqn:Hrun;
    [|right; split; [by eexists|by left; right; left]].
  destruct (NewCommand.flags c) as [| |record] eqn:Hflags;
    [right; split; [by eexists|by left; right; right; left]
    |right; split; [by eexists|by left; right; right; right; left]|].
  destruct (validate_flags_spec (tidy raw) (map_to_list record))
    as [[Hok Hall]|[[text Hexit] (n & f & Hin & Hf)]].
  - left. exists raw, run, record. repeat split; try done.
    + intros [?|[?|[?|[?|(record' & [= <-] & n & f & Hl & Hf)]]]]; try done.
      apply (Hall n f); [by apply elem_of_map_to_list|done].
    + by rewrite Hok.
  - right. split; [exists text; by rewrite Hexit|].
    left. do 4 right. exists record. split; [done|].
    exists n, f. split; [by apply elem_of_map_to_list|done].
Qed.

Lemma clash_cons (c : NewCommand.t) (rest : list NewCommand.t) :
  clash (c :: rest)
  ↔ (∃ raw, NewCommand.name c = Some raw ∧ taken {[ tidy raw ]} rest)
    ∨ clash rest.
Proof.
  unfold clash, taken. split.
  - intros (i & j & ci & cj & ni & nj & Hij & Hi & Hj & Hni & Hnj & Heq).
    destruct j as [|j]; [lia|]. destruct i as [|i]; simplify_eq/=.
    + left. exists ni. split; [done|]. exists cj, nj.
      split; [by eapply list_elem_of_lookup_2|]. split; [done|].
      apply elem_of_singleton. congruence.
    + right. exists i, j, ci, cj, ni, nj. repeat split; try done. lia.
  - intros [(raw & Hraw & c' & raw' & Hin & Hraw' & Heq)|
            (i & j & ci & cj & ni & nj & Hij & Hi & Hj & Hni & Hnj & Heq)].
    + apply list_elem_of_lookup in Hin as [j Hj].
      apply elem_of_singleton in Heq.
      exists 0%nat, (S j), c, c', raw, raw'. repeat split; try done. lia.
    + exists (S i), (S j), ci, cj, ni, nj. repeat split; try done. lia.
Qed.

Lemma taken_cons names (c : NewCommand.t) rest :
  taken names (c :: rest)
  ↔ (∃ raw, NewCommand.name c = Some raw ∧ tidy raw ∈ names) ∨ taken names rest.
Proof.
  unfold taken. split.
  - intros (c' & raw & [->|Hin]%elem_of_cons & Hraw & Hn).
    + left. by exists raw.
    + right. by exists c', raw.
  - intros [(raw & Hraw & Hn)|(c' & raw & Hin & Hraw & Hn)].
    + exists c, raw. split; [by left|done].
    + exists c', raw. split; [by right|done].
Qed.

Lemma tidy_names_cons c rest raw :
  NewCommand.name c = Some raw →
  tidy_names (c :: rest) = tidy raw :: tidy_names rest.
Proof. unfold tidy_names. simpl. by intros ->. Qed.

Lemma validate_commands_spec (commands : list NewCommand.t) : ∀ names,
  (∃ checked,
     validate_commands names commands = ([], Returned checked)
     ∧ TakeCommand.name <$> checked = tidy_names commands
     ∧ length checked = length commands
     ∧ NoDup (TakeCommand.name <$> checked)
     ∧ Forall (λ c, ¬ malformed c) commands
     ∧ ¬ clash commands
     ∧ ¬ taken names commands)
  ∨ ((∃ text, validate_commands names commands = ([Line text], Exited 1))
     ∧ (Exists malformed commands ∨ clash commands ∨ taken names commands)).
Proof.
  induction commands as [|c rest IH]; intros names.
  - left. exists []. repeat split; try done; try constructor.
    + intros (i & j & ci & ? & ? & ? & _ & Hi & _). by destruct i.
    + intros (c & raw & Hin & _). by apply elem_of_nil in Hin.
  - rewrite validate_commands_cons.
    destruct (validate_command_spec names c)
      as [(raw & run & record & Hname & Hrun & Hflags & Hnew & Hwf & ->)
         |[[text ->] Hbad]].
    + rewrite bind_nil. cbn [TakeCommand.name].
      destruct (IH ({[tidy raw]} ∪ names))
        as [(checked & -> & Hnames & Hlen & Hnd & Hall & Hclash & Htaken)
           |[[text ->] Hbad]].
      * left. eexists. split; [done|].
        rewrite fmap_cons, (tidy_names_cons _ _ _ Hname), Hnames.
        cbn [TakeCommand.name length].
        repeat split; try done.
        -- by rewrite Hlen.
        -- apply NoDup_cons. split; [|by rewrite <- Hnames].
           intros Hin. apply Htaken.
           apply list_elem_of_omap in Hin as (c' & Hc' & Hraw').
           destruct (NewCommand.name c') as [raw'|] eqn:Hn'; simplify_eq/=.
           exists c', raw'. repeat split; try done.
           apply elem_of_union. left. apply elem_of_singleton. congruence.
        -- by constructor.
        -- rewrite clash_cons. intros [(raw' & Hraw' & c' & r' & Hin & Hr' & Ht)|?];
             [|done].
           simplify_eq. apply Htaken. exists c', r'. repeat split; try done.
           apply elem_of_union. by left.
        -- rewrite taken_cons. intros [(raw' & ? & ?)|(c' & r' & Hin & Hr' & Ht)];
             [by simplify_eq|].
           apply Htaken. exists c', r'. repeat split; try done.
           apply elem_of_union. by right.
      * right. split; [by eexists|].
        destruct Hbad as [Hex|[Hcl|(c' & r' & Hin & Hr' & Ht)]].
        -- left. by right.
        -- right. left. apply clash_cons. by right.
        -- apply elem_of_union in Ht as [Ht|Ht].
           ++ right. left. apply clash_cons. left. exists raw.
              split; [done|]. by exists c', r'.
           ++ right. right. apply taken_cons. right. by exists c', r'.
    + right. split; [by eexists|].
      destruct Hbad as [Hm|Ht].
      * left. by left.
      * right. right. apply taken_cons. by left.
Qed.

Lemma not_taken_empty (commands : list NewCommand.t) : ¬ taken ∅ commands.
Proof. intros (c & raw & _ & _ & Hin). by apply elem_of_empty in Hin. Qed.

(** What [validate] does, by cases. *)
Lemma validate_spec (commands : list NewCommand.t) :
  (∃ checked,
     validate commands
     = ([], Returned (toSorted (key_ltb TakeCommand.name) checked))
     ∧ TakeCommand.name <$> checked = tidy_names commands
     ∧ length checked = length commands
     ∧ NoDup (TakeCommand.name <$> checked)
     ∧ commands ≠ []
     ∧ Forall (λ c, ¬ malformed c) commands
     ∧ ¬ clash commands)
  ∨ ((∃ text, validate commands = ([Line text], Exited 1))
     ∧ (commands = [] ∨ Exists malformed commands ∨ clash commands)).
Proof.
  unfold validate. destruct commands as [|c rest] eqn:Hcs.
  { right. split; [by eexists|by left]. }
  rewrite <- Hcs. rewrite bind_ret.
  destruct (validate_commands_spec commands ∅)
    as [(checked & -> & Hnames & Hlen & Hnd & Hall & Hclash & _)
       |[[text ->] Hbad]].
  - left. exists checked. rewrite bind_nil.
    repeat split; try done. by rewrite Hcs.
  - right. split; [by eexists|].
    destruct Hbad as [?|[?|Ht]]; auto. by apply not_taken_empty in Ht.
Qed.

(** C8.  [validate] ends the process with code 1, after printing one
    line, exactly when the list of commands is empty, or a command lacks
    a string name, a callable run, or a flags mapping, or a flag lacks a
    description, or two commands have the same tidy name; it never
    throws.  Otherwise it returns the registry: the commands under their
    tidy names, sorted by name, and these names are pairwise distinct. *)
Theorem registry_validation (commands : list NewCommand.t) :
  ((∃ out, validate commands = (out, Exited 1))
   ↔ commands = [] ∨ Exists malformed commands ∨ clash commands)
  ∧ ((∃ text, validate commands = ([Line text], Exited 1))
     ∨ (∃ registry, validate commands = ([], Returned registry)))
  ∧ (∀ out registry,
       validate commands = (out, Returned registry) →
       out = []
       ∧ commands ≠ []
       ∧ Forall (λ c, ¬ malformed c) commands
       ∧ ¬ clash commands
       ∧ NoDup (TakeCommand.name <$> registry)
       ∧ TakeCommand.name <$> registry ≡ₚ tidy_names commands
       ∧ length registry = length commands
       ∧ StronglySorted (key_lt TakeCommand.name) registry).
Proof.
  destruct (validate_spec commands)
    as [(checked & Hv & Hnames & Hlen & Hnd & Hne & Hall & Hclash)
       |[[text Hv] Hbad]].
  - repeat match goal with |- _ ∧ _ => split end.
    + split.
      * intros [out Hexit]. by rewrite Hv in Hexit.
      * intros [?|[Hex|?]]; try done.
        apply Exists_exists in Hex as (c & Hc & Hm).
        rewrite Forall_forall in Hall. by destruct (Hall c Hc).
    + right. by eexists.
    + intros out registry. rewrite Hv. intros [= <- <-].
      repeat split; try done.
      * by rewrite toSorted_perm.
      * by rewrite toSorted_perm, Hnames.
      * by rewrite toSorted_perm.
      * by apply toSorted_strict.
  - repeat match goal with |- _ ∧ _ => split end.
    + split; [done|]. intros _. by eexists.
    + left. by eexists.
    + intros out registry. by rewrite Hv.
Qed.

(** ** The theorems at concrete inputs *)

Example validate_sorts :
  validate [Command serve_command; Command db_migrate_command; Command build_command; Command db_command]
  = ([], Returned [build_command; db_command; db_migrate_command; serve_command]).
Proof. by vm_compute. Qed.

Example validate_tidies_names :
  validate [NewCommand.make (Some "  db   migrate ") "Run database migrations"
              None (FlagsObject ∅) (Some silent)]
  = ([], Returned [db_migrate_command]).
Proof. by vm_compute. Qed.

Example validate_duplicate :
  validate [Command db_migrate_command;
            NewCommand.make (Some "db  migrate") "" None (FlagsObject ∅) (Some silent)]
  = ([Line "duplicate command name: db migrate"], Exited 1).
Proof. by vm_compute. Qed.

Example flag_markers :
  flag_marker "--watch" = Some (true, "watch")
  ∧ flag_marker "-w" = Some (false, "w")
  ∧ flag_marker "--" = Some (false, "-")
  ∧ flag_marker "-" = None
  ∧ flag_marker "-a b" = None
  ∧ flag_marker "file.txt" = None.
Proof. by repeat split. Qed.

Example parse_numbers :
  parseFloat "5" = Decimal false "5" "" None
  ∧ parseFloat " -1.5e3x" = Decimal true "1" "5" (Some (false, "3"))
  ∧ parseFloat ".5" = Decimal false "" "5" None
  ∧ parseFloat "-Infinity" = Infinity true
  ∧ parseFloat "." = NaN
  ∧ parseFloat "" = NaN.
Proof. by repeat split. Qed.

Example run_repeat :
  Register 0 [Command repeat_command] ∅ ["repeat"; "--count"; "5"]
  = ([RanIn "repeat"], Returned tt).
Proof. by vm_compute. Qed.

Example run_conversion_error :
  Register 0 [Command repeat_command] ∅ ["repeat"; "--count"; "abc"]
  = ([Overview [("repeat", "Repeat a message N times")];
      ErrorLine "expected a number, got: abc"; BlankLine],
     Exited 1).
Proof. by vm_compute. Qed.

(** C1 for the registry of db and db migrate. *)
Lemma resolve_longest_prefix_witness :
  ["db"; "migrate"; "x"] ≠ []
  ∧ ∃ c, resolve [db_command; db_migrate_command] ["db"; "migrate"; "x"] = Some (c, ["x"])
         ∧ TakeCommand.name c = "db migrate".
Proof.
  assert (["db"; "migrate"; "x"] ≠ @nil string) as Hne by discriminate.
  split; [exact Hne|].
  destruct (resolve_longest_prefix [db_command; db_migrate_command] ∅ ["db"; "migrate"; "x"] Hne)
    as (_ & _ & _ & H).
  apply (H db_migrate_command).
  - apply elem_of_cons. right. apply elem_of_cons. by left.
  - reflexivity.
  - intros c Hc. apply elem_of_cons in Hc as [->|Hc]; [discriminate|].
    apply elem_of_cons in Hc as [->|Hc]; [discriminate|].
    by apply elem_of_nil in Hc.
Defined.




Example help_after_flags :
  Register 0 [Command repeat_command] ∅ ["repeat"; "--count"; "5"; "--help"]
  = ([Detail "repeat" [(" --count, -c <number>",
                        name_flag ("count", Flag.make (VNumber three)
                                              "Number of repetitions" None));
                       (" --help, -h", help_flag)]],
     Exited 0).
Proof. by vm_compute. Qed.


Example environment_fallback :
  parse {[ "OUT" := "out" ]} build_command []
  = ([], Returned (<["help" := VBoolean false]>
                   (<["watch" := VBoolean false]> {[ "output" := VString "out" ]}),
                   []))
  ∧ parse {[ "OUT" := "out" ]} build_command ["--output"; "bin"]
    = ([], Returned (<["help" := VBoolean false]>
                     (<["watch" := VBoolean false]> {[ "output" := VString "bin" ]}),
                     []))
  ∧ parse {[ "OUT" := "" ]} build_command []
    = parse ∅ build_command []
  ∧ parse ∅ build_command []
    = ([], Returned (<["help" := VBoolean false]>
                     (<["watch" := VBoolean false]> {[ "output" := VString "dist" ]}),
                     [])).
Proof. repeat split; by vm_compute. Qed.

Example environment_conversion_error :
  parse {[ "WORKERS" := "many" ]}
    (TakeCommand.make "serve" ["serve"] "Start server" None
       {[ "workers" := Flag.make (VNumber three) "Worker count" (Some "WORKERS") ]}
       silent)
    []
  = throw (ThrowString "expected a number, got: many").
Proof. by vm_compute. Qed.

(** * Further properties *)

(** ** Strings: ends, trimming, lines *)

Lemma first_char_app (s t : string) :
  s ≠ "" → Js.first_char (s +:+ t) = Js.first_char s.
Proof. by destruct s. Qed.

Lemma last_char_app (s t : string) :
  t ≠ "" → last_char (s +:+ t) = last_char t.
Proof.
  intros Ht. induction s as [|c s IH]; [done|].
  simpl. rewrite IH. destruct (s +:+ t) eqn:E; [|done].
  destruct s; simpl in E; [by subst|done].
Qed.

Lemma drop_last_app (s : string) (c : ascii) :
  drop_last (s +:+ String c "") = s.
Proof.
  induction s as [|d s IH]; [done|].
  simpl. rewrite IH. by destruct s.
Qed.

Lemma drop_spaces_tight (s : string) :
  (∀ c, Js.first_char s = Some c → Js.is_space c = false) →
  Js.drop_spaces s = s.
Proof. destruct s as [|c r]; [done|]. simpl. intros H. by rewrite (H c). Qed.

Lemma trim_end_tight (s : string) :
  (∀ c, last_char s = Some c → Js.is_space c = false) → trim_end s = s.
Proof.
  induction s as [|c r IH]; [done|]. intros H. simpl.
  destruct r as [|d r'].
  - simpl. by rewrite (H c).
  - rewrite IH; [done|]. intros e He. by apply H.
Qed.

Lemma trim_tight (s : string) : tight s → trim s = s.
Proof.
  intros [Hfirst Hlast]. unfold trim.
  rewrite drop_spaces_tight by done. by apply trim_end_tight.
Qed.

Lemma trim_empty : trim "" = "".
Proof. done. Qed.

Lemma split_lines_single (line : string) :
  Js.all_chars (λ c, negb (Ascii.eqb c LF)) line = true →
  split_lines line = [line].
Proof.
  induction line as [|c r IH]; [done|]. simpl.
  intros [Hc Hr]%andb_prop. apply negb_true_iff in Hc. rewrite Hc.
  by rewrite IH.
Qed.

Lemma split_lines_app (line rest : string) :
  Js.all_chars (λ c, negb (Ascii.eqb c LF)) line = true →
  split_lines (line +:+ String LF rest) = line :: split_lines rest.
Proof.
  induction line as [|c r IH]; [done|]. simpl.
  intros [Hc Hr]%andb_prop. apply negb_true_iff in Hc. rewrite Hc.
  by rewrite IH.
Qed.

Lemma split_lines_join (lines : list string) :
  lines ≠ [] →
  Forall (λ line, Js.all_chars (λ c, negb (Ascii.eqb c LF)) line = true) lines →
  split_lines (Js.join newline lines) = lines.
Proof.
  induction lines as [|line [|line' lines] IH]; [done| |]; intros _ Hall.
  - apply Forall_cons in Hall as [Hl _]. by apply split_lines_single.
  - apply Forall_cons in Hall as [Hl Hall].
    change (Js.join newline (line :: line' :: lines))
      with (line +:+ String LF (Js.join newline (line' :: lines))).
    rewrite split_lines_app by done. by rewrite IH.
Qed.

Lemma split_eq_app (k v : string) :
  Js.all_chars (λ c, negb (Ascii.eqb c "=")) k = true →
  split_eq (k +:+ String "=" v) = Some (k, v).
Proof.
  induction k as [|c r IH]; [done|]. simpl.
  intros [Hc Hr]%andb_prop. apply negb_true_iff in Hc. rewrite Hc.
  by rewrite IH.
Qed.

Lemma all_chars_impl (p q : ascii → bool) (s : string) :
  (∀ c, p c = true → q c = true) →
  Js.all_chars p s = true → Js.all_chars q s = true.
Proof.
  intros Hpq. induction s as [|c r IH]; [done|]. simpl.
  intros [Hc Hr]%andb_prop. by rewrite (Hpq c Hc), IH.
Qed.

Lemma all_chars_app (p : ascii → bool) (s t : string) :
  Js.all_chars p (s +:+ t) = Js.all_chars p s && Js.all_chars p t.
Proof.
  induction s as [|c r IH]; [done|]. simpl. by rewrite IH, andb_assoc.
Qed.

Lemma not_LF_or (c : ascii) (other : ascii) :
  negb (Ascii.eqb c other || Ascii.eqb c LF) = true →
  negb (Ascii.eqb c LF) = true.
Proof. destruct (Ascii.eqb c other), (Ascii.eqb c LF); done. Qed.

(** ** loadEnvFile *)

Lemma tight_assignment (k v : string) :
  k ≠ "" → tight k → tight v → tight (k +:+ String "=" v).
Proof.
  intros Hk [Hkf _] [_ Hvl]. split.
  - intros c. rewrite first_char_app by done. apply Hkf.
  - intros c. destruct v as [|d v'].
    + rewrite last_char_app by done. by intros [= <-].
    + change (k +:+ String "=" (String d v'))
        with (k +:+ (String "=" (String d v'))).
      rewrite last_char_app by done. intros Hc. by apply Hvl.
Qed.

(** A line [key=value] stores the value, without its quotes, under the
    key. *)
Lemma load_line_assignment (process_env : gmap string string) (k v : string) :
  plain_key k → tight v →
  Js.all_chars (λ c, negb (Ascii.eqb c LF || Ascii.eqb c CR)) v = true →
  load_line process_env (k +:+ String "=" v) = <[k := unquote v]> process_env.
Proof.
  intros (Hk & Hkt & Hhash & Hkc) Hvt Hvc.
  unfold load_line. cbv zeta.
  rewrite (trim_tight (k +:+ String "=" v)) by by apply tight_assignment.
  rewrite bool_decide_eq_false_2 by by rewrite first_char_app.
  assert (nonempty (k +:+ String "=" v) = true) as -> by by destruct k.
  cbn [negb orb]. unfold match_assignment.
  rewrite split_eq_app.
  2:{ eapply all_chars_impl; [|exact Hkc]. intros c.
      simpl. destruct (Ascii.eqb c "="); simpl; auto. }
  assert (nonempty k = true) as -> by by destruct k.
  rewrite Hvc. cbn [andb].
  by rewrite (trim_tight k), (trim_tight v).
Qed.

Lemma load_line_plain (process_env : gmap string string) (k v : string) :
  plain_key k → plain_value v →
  load_line process_env (assignment (k, v)) = <[k := v]> process_env.
Proof.
  intros Hk (Hvt & Hdq & Hsq & Hvc).
  change (assignment (k, v)) with (k +:+ String "=" v).
  rewrite load_line_assignment by done.
  unfold unquote. by rewrite Hdq, Hsq.
Qed.

Lemma assignment_no_LF (k v : string) :
  plain_key k → plain_value v →
  Js.all_chars (λ c, negb (Ascii.eqb c LF)) (assignment (k, v)) = true.
Proof.
  intros (_ & _ & _ & Hkc) (_ & _ & _ & Hvc).
  change (assignment (k, v)) with (k +:+ String "=" v).
  rewrite all_chars_app. simpl. apply andb_true_intro. split.
  - eapply all_chars_impl; [|exact Hkc]. intros c. apply not_LF_or.
  - eapply all_chars_impl; [|exact Hvc]. intros c.
    simpl. destruct (Ascii.eqb c LF); simpl; auto.
Qed.

Lemma load_lines_plain (kvs : list (string * string)) : ∀ process_env,
  Forall (λ kv, plain_key kv.1 ∧ plain_value kv.2) kvs →
  fold_left load_line (assignment <$> kvs) process_env
  = fold_left (λ e kv, <[kv.1 := kv.2]> e) kvs process_env.
Proof.
  induction kvs as [|[k v] kvs IH]; intros process_env Hall; [done|].
  apply Forall_cons in Hall as [[Hk Hv] Hall]. simpl.
  rewrite load_line_plain by done. by apply IH.
Qed.

(** X1.  Writing plain keys and values as lines [key=value] and loading
    the text is the same as assigning them in order: each value is read
    back as written, a later line for a key replaces an earlier one, and
    a value in the file replaces the value that the process environment
    held for the key. *)
Theorem env_file_round_trip (kvs : list (string * string))
    (process_env : gmap string string) :
  Forall (λ kv, plain_key kv.1 ∧ plain_value kv.2) kvs →
  loadEnvFile (Some (Js.join newline (assignment <$> kvs))) process_env
  = (fold_left (λ e kv, <[kv.1 := kv.2]> e) kvs process_env, true)
  ∧ ∀ pre k v,
      kvs = pre ++ [(k, v)] →
      (loadEnvFile (Some (Js.join newline (assignment <$> kvs))) process_env).1 !! k
      = Some v.
Proof.
  intros Hall.
  assert (load_content (Js.join newline (assignment <$> kvs)) process_env
          = fold_left (λ e kv, <[kv.1 := kv.2]> e) kvs process_env) as Heq.
  { unfold load_content. destruct kvs as [|kv kvs]; [done|].
    rewrite split_lines_join; [by apply load_lines_plain|done|].
    apply Forall_fmap. eapply Forall_impl; [exact Hall|].
    intros [k v] [Hk Hv]. by apply assignment_no_LF. }
  unfold loadEnvFile. rewrite Heq. split; [done|].
  intros pre k v ->. simpl. rewrite fold_left_app. simpl.
  by rewrite lookup_insert_eq.
Qed.

Lemma split_eq_None (s : string) :
  "="%char ∉ Js.letters s → split_eq s = None.
Proof.
  induction s as [|c r IH]; [done|]. simpl. intros Hnot.
  destruct (Ascii.eqb_spec c "=") as [->|Hne].
  - destruct Hnot. by left.
  - rewrite IH; [done|]. intros Hin. apply Hnot. by right.
Qed.

Lemma load_line_inert (process_env : gmap string string) (line : string) :
  inert line → load_line process_env line = process_env.
Proof.
  unfold load_line. cbv zeta. intros [Hblank|[Hhash|[Hno|Heq]]].
  - by rewrite Hblank.
  - rewrite (bool_decide_eq_true_2 _ Hhash). by rewrite orb_true_r.
  - destruct (_ || _); [done|]. unfold match_assignment.
    by rewrite split_eq_None.
  - destruct (_ || _); [done|]. unfold match_assignment.
    destruct (trim line) as [|c r]; [done|]. injection Heq as ->. done.
Qed.

(** X2.  A file in which every line is blank, a comment (its first
    character after trimming is #), without an [=], or with nothing
    before its first [=], changes no variable. *)
Theorem env_file_inert_lines (content : string)
    (process_env : gmap string string) :
  Forall inert (split_lines content) →
  loadEnvFile (Some content) process_env = (process_env, true).
Proof.
  intros Hall. unfold loadEnvFile, load_content. f_equal.
  revert process_env.
  induction Hall as [|line lines Hline _ IH]; intros process_env; [done|].
  simpl. rewrite load_line_inert by done. apply IH.
Qed.

Lemma load_line_lookup (process_env : gmap string string) (line key : string) :
  (∀ k v, match_assignment (trim line) = Some (k, v) → trim k ≠ key) →
  load_line process_env line !! key = process_env !! key.
Proof.
  intros Hkey. unfold load_line. cbv zeta.
  destruct (_ || _); [done|].
  destruct (match_assignment (trim line)) as [[k v]|] eqn:Hm; [|done].
  rewrite lookup_insert_ne; [done|]. by apply (Hkey k v).
Qed.

Lemma load_line_keeps (process_env : gmap string string) (line key : string) :
  is_Some (process_env !! key) → is_Some (load_line process_env line !! key).
Proof.
  intros Hin. unfold load_line. cbv zeta.
  destruct (_ || _); [done|].
  destruct (match_assignment (trim line)) as [[k v]|]; [|done].
  rewrite lookup_insert. by case_decide.
Qed.

(** X3.  Loading a file leaves every variable that no line assigns as it
    was, and never removes a variable. *)
Theorem env_file_frame (file : option string)
    (process_env : gmap string string) (key : string) :
  (∀ content line k v,
     file = Some content → line ∈ split_lines content →
     match_assignment (trim line) = Some (k, v) → trim k ≠ key) →
  (loadEnvFile file process_env).1 !! key = process_env !! key
  ∧ ∀ other, is_Some (process_env !! other) →
             is_Some ((loadEnvFile file process_env).1 !! other).
Proof.
  intros Hkey. destruct file as [content|]; [|done].
  unfold loadEnvFile, load_content. simpl.
  assert (∀ line k v, line ∈ split_lines content →
                      match_assignment (trim line) = Some (k, v) → trim k ≠ key)
    as Hlines by eauto.
  clear Hkey. revert process_env Hlines.
  induction (split_lines content) as [|line lines IH]; intros process_env Hlines;
    [done|].
  simpl. destruct (IH (load_line process_env line)) as [Hsame Hkeep].
  { intros l k v Hin. apply Hlines. by right. }
  split.
  - rewrite Hsame. apply load_line_lookup. intros k v. apply Hlines. by left.
  - intros other Hother. by apply Hkeep, load_line_keeps.
Qed.

(** X4.  A value between a pair of double quotes, or a pair of single
    quotes, is stored without the quotes and otherwise as it stands,
    white space at its ends included. *)
Theorem env_file_quoted_value (process_env : gmap string string)
    (k inner : string) (q : ascii) :
  plain_key k →
  q = dquote_char ∨ q = squote →
  Js.all_chars (λ c, negb (Ascii.eqb c LF || Ascii.eqb c CR)) inner = true →
  loadEnvFile (Some (k +:+ "=" +:+ String q (inner +:+ String q ""))) process_env
  = (<[k := inner]> process_env, true).
Proof.
  intros Hk Hq Hinner. unfold loadEnvFile, load_content. f_equal.
  set (v := String q (inner +:+ String q "")).
  change (k +:+ "=" +:+ v) with (k +:+ String "=" v).
  assert (Js.is_space q = false) as Hspace by by destruct Hq as [-> | ->].
  assert (last_char v = Some q) as Hlast.
  { unfold v. change (String q (inner +:+ String q ""))
      with (String q inner +:+ String q ""). by rewrite last_char_app. }
  assert (tight v) as Htight.
  { split; intros c; [by intros [= <-]|]. rewrite Hlast. by intros [= <-]. }
  assert (Js.all_chars (λ c, negb (Ascii.eqb c LF || Ascii.eqb c CR)) v = true)
    as Hv.
  { unfold v. change (String q (inner +:+ String q ""))
      with (String q inner +:+ String q "").
    rewrite all_chars_app. simpl. rewrite Hinner.
    by destruct Hq as [-> | ->]. }
  assert (unquote v = inner) as Hunquote.
  { unfold unquote, wrapped. rewrite Hlast. unfold v. simpl.
    rewrite drop_last_app. by destruct Hq as [-> | ->]. }
  clearbody v.
  rewrite split_lines_single.
  2:{ rewrite all_chars_app. apply andb_true_intro. split.
      - destruct Hk as (_ & _ & _ & Hkc).
        eapply all_chars_impl; [|exact Hkc]. intros c. apply not_LF_or.
      - change (String "=" v) with (String "=" "" +:+ v).
        rewrite all_chars_app. apply andb_true_intro. split; [done|].
        eapply all_chars_impl; [|exact Hv]. intros c. simpl.
        destruct (Ascii.eqb c LF); simpl; auto. }
  simpl. rewrite load_line_assignment by done. by rewrite Hunquote.
Qed.

(** ** joinColumns *)

Lemma length_app (a b : string) :
  String.length (a +:+ b) = (String.length a + String.length b)%nat.
Proof. induction a as [|c a IH]; simpl; [done|]. by rewrite IH. Qed.

Lemma length_spaces (n : nat) : String.length (spaces n) = n.
Proof. induction n as [|n IH]; simpl; [done|]. by rewrite IH. Qed.

Lemma spaces_blank (n : nat) : Js.all_chars (Ascii.eqb " ") (spaces n) = true.
Proof. by induction n. Qed.

Lemma widest_from (table : list (string * string)) : ∀ m : nat,
  (m ≤ fold_left (λ m item, Nat.max m (String.length item.1)) table m)%nat
  ∧ (∀ item, item ∈ table →
       (String.length item.1
        ≤ fold_left (λ m item, Nat.max m (String.length item.1)) table m)%nat)
  ∧ (fold_left (λ m item, Nat.max m (String.length item.1)) table m = m
     ∨ ∃ item, item ∈ table
         ∧ fold_left (λ m item, Nat.max m (String.length item.1)) table m
           = String.length item.1).
Proof.
  induction table as [|row table IH]; intros m; simpl.
  - split; [lia|]. split; [|by left]. intros item Hin. by apply elem_of_nil in Hin.
  - destruct (IH (Nat.max m (String.length row.1))) as (Hm & Hall & Hmax).
    split; [lia|]. split.
    + intros item [->|Hin]%elem_of_cons; [lia|by apply Hall].
    + destruct Hmax as [Heq|(item & Hin & Heq)].
      * destruct (Nat.max_spec m (String.length row.1)) as [[_ Hr]|[_ Hl]].
        -- right. exists row. split; [by left|]. by rewrite Heq.
        -- left. by rewrite Heq.
      * right. exists item. split; [by right|done].
Qed.

(** X5.  In a table the right texts start in one column: a row with a
    right text is its left text, padded with spaces to the width of the
    widest left text, then one space, then the right text; a row without
    a right text is its left text alone.  The width is that of some row,
    so that the widest row has no padding. *)
Theorem joinColumns_alignment (table : list (string * string)) :
  joinColumns table = Js.join newline (column_line (widest table) <$> table)
  ∧ (∀ left right,
       (left, right) ∈ table → right ≠ "" →
       ∃ pad,
         column_line (widest table) (left, right)
         = left +:+ pad +:+ " " +:+ right
         ∧ Js.all_chars (Ascii.eqb " ") pad = true
         ∧ String.length (left +:+ pad) = widest table)
  ∧ (∀ left, column_line (widest table) (left, "") = left)
  ∧ (table ≠ [] → ∃ left right, (left, right) ∈ table
                                 ∧ String.length left = widest table).
Proof.
  split; [done|]. split; [|split].
  - intros left right Hin Hright.
    exists (spaces (widest table - String.length left)).
    split; [|split].
    + unfold column_line. simpl. by destruct right.
    + apply spaces_blank.
    + rewrite length_app, length_spaces.
      destruct (widest_from table 0) as (_ & Hall & _).
      specialize (Hall _ Hin). simpl in Hall. unfold widest. lia.
  - done.
  - intros Hne. destruct (widest_from table 0) as (_ & Hall & [Hzero|Hmax]).
    + destruct table as [|[left right] table]; [done|].
      exists left, right. split; [by left|].
      assert ((left, right) ∈ (left, right) :: table) as Hin by by left.
      apply Hall in Hin. rewrite Hzero in Hin. simpl in Hin.
      unfold widest. rewrite Hzero. lia.
    + destruct Hmax as ([left right] & Hin & Heq).
      exists left, right. split; [done|]. unfold widest. by rewrite Heq.
Qed.

(** ** Tidy names *)

Lemma is_word_cons (c : ascii) (w : string) :
  Js.is_space c = false → (w = "" ∨ is_word w) → is_word (String c w).
Proof.
  intros Hc Hw. split; [done|]. simpl. rewrite Hc. simpl.
  by destruct Hw as [->|[_ Hw]].
Qed.

Lemma words_are_words (s : string) : Forall is_word (Js.words s).
Proof.
  induction s as [|c r IH]; simpl; [constructor|].
  destruct (Js.is_space c) eqn:Hc; [done|].
  destruct r as [|c' r'].
  - constructor; [|constructor]. apply is_word_cons; auto.
  - destruct (Js.is_space c') eqn:Hc'.
    + constructor; [|done]. apply is_word_cons; auto.
    + destruct (Js.words (String c' r')) as [|w ws].
      * constructor; [|constructor]. apply is_word_cons; auto.
      * inversion IH; subst. constructor; [|done]. apply is_word_cons; auto.
Qed.

Lemma words_word_then (w t : string) :
  is_word w → Js.words (w +:+ String " " t) = w :: Js.words t.
Proof.
  induction w as [|c r IH]; intros [Hne Hall]; [done|].
  simpl in Hall. apply andb_prop in Hall as [Hc Hr].
  apply negb_true_iff in Hc.
  change (String c r +:+ String " " t) with (String c (r +:+ String " " t)).
  cbn [Js.words]. rewrite Hc.
  destruct r as [|c' r'].
  - done.
  - change (String c' r' +:+ String " " t)
      with (String c' (r' +:+ String " " t)).
    simpl in Hr. apply andb_prop in Hr as [Hc' Hr'].
    apply negb_true_iff in Hc'. rewrite Hc'.
    change (String c' (r' +:+ String " " t))
      with (String c' r' +:+ String " " t).
    rewrite IH; [done|]. split; [done|]. simpl. by rewrite Hc', Hr'.
Qed.

Lemma words_word (w : string) : is_word w → Js.words w = [w].
Proof.
  induction w as [|c r IH]; intros [Hne Hall]; [done|].
  simpl in Hall. apply andb_prop in Hall as [Hc Hr].
  apply negb_true_iff in Hc.
  cbn [Js.words]. rewrite Hc.
  destruct r as [|c' r']; [done|].
  simpl in Hr. apply andb_prop in Hr as [Hc' Hr'].
  apply negb_true_iff in Hc'. rewrite Hc'.
  rewrite IH; [done|]. split; [done|]. simpl. by rewrite Hc', Hr'.
Qed.

Lemma words_join (ws : list string) :
  Forall is_word ws → Js.words (Js.join " " ws) = ws.
Proof.
  induction 1 as [|w ws Hw Hws IH]; [done|].
  destruct ws as [|w' ws'].
  - by apply words_word.
  - change (Js.join " " (w :: w' :: ws'))
      with (w +:+ String " " (Js.join " " (w' :: ws'))).
    by rewrite words_word_then, IH.
Qed.

Lemma trim_split_tidy (s : string) : Js.trim_split (tidy s) = Js.trim_split s.
Proof.
  unfold tidy, Js.trim_split.
  destruct (Js.words s) as [|w ws] eqn:Hwords; [done|].
  rewrite words_join; [done|]. rewrite <- Hwords. apply words_are_words.
Qed.

(** X6.  Tidying a name is idempotent: the tidy form of a name has the
    same words as the name, it is its own tidy form, and its words hold
    no white space. *)
Theorem tidy_idempotent (s : string) :
  tidy (tidy s) = tidy s
  ∧ Js.trim_split (tidy s) = Js.trim_split s
  ∧ Forall (λ w, Js.all_chars (λ c, negb (Js.is_space c)) w = true)
      (Js.trim_split s)
  ∧ (Js.words s = [] → tidy s = "").
Proof.
  split; [|split; [|split]].
  - unfold tidy at 1 3. by rewrite trim_split_tidy.
  - apply trim_split_tidy.
  - unfold Js.trim_split. pose proof (words_are_words s) as Hws.
    destruct (Js.words s) as [|w ws].
    + by constructor.
    + eapply Forall_impl; [exact Hws|]. by intros w' [_ Hw'].
  - unfold tidy, Js.trim_split. by intros ->.
Qed.

(** ** The registry *)

Lemma validate_command_checked names c out tc :
  validate_command names c = (out, Returned tc) → checked c = Some tc.
Proof.
  intros Hret.
  destruct (validate_command_spec names c)
    as [(raw & run & record & Hname & Hrun & Hflags & _ & _ & Heq)
       |[(text & Heq) _]];
    rewrite Heq in Hret; [|done].
  injection Hret as _ <-. unfold checked. by rewrite Hname, Hrun, Hflags.
Qed.

Lemma validate_commands_checked (commands : list NewCommand.t) :
  ∀ names out tcs,
    validate_commands names commands = (out, Returned tcs) →
    Forall2 (λ c tc, checked c = Some tc) commands tcs.
Proof.
  induction commands as [|c rest IH]; intros names out tcs.
  - intros [= _ <-]. constructor.
  - rewrite validate_commands_cons.
    intros (out1 & tc & out2 & Hc & Hrest & _)%bind_Returned.
    apply bind_Returned in Hrest as (out3 & tcs' & out4 & Hrest & Hret & _).
    injection Hret as _ <-. constructor.
    + by eapply validate_command_checked.
    + by eapply IH.
Qed.

Lemma checked_omap (commands : list NewCommand.t) (tcs : list TakeCommand.t) :
  Forall2 (λ c tc, checked c = Some tc) commands tcs →
  omap checked commands = tcs.
Proof.
  induction 1 as [|c tc cs tcs Hc _ IH]; [done|].
  simpl. rewrite Hc. f_equal. exact IH.
Qed.

(** What [validate] returns is the sorted list of the checked commands. *)
Lemma validate_Returned (commands : list NewCommand.t) out registry :
  validate commands = (out, Returned registry) →
  out = []
  ∧ registry = toSorted (key_ltb TakeCommand.name) (omap checked commands)
  ∧ Forall2 (λ c tc, checked c = Some tc) commands (omap checked commands)
  ∧ NoDup (TakeCommand.name <$> omap checked commands)
  ∧ TakeCommand.name <$> omap checked commands = tidy_names commands.
Proof.
  intros Hret. unfold validate in Hret.
  apply bind_Returned in Hret as (out1 & [] & out2 & Hfirst & Hret & ->).
  apply bind_Returned in Hret as (out3 & tcs & out4 & Hcs & Hret & ->).
  injection Hret as <- <-.
  assert (out1 = []) as -> by (destruct commands; by injection Hfirst).
  pose proof (validate_commands_checked _ _ _ _ Hcs) as Hall.
  pose proof (checked_omap _ _ Hall) as Homap.
  destruct (validate_commands_spec commands ∅)
    as [(tcs' & Heq & Hnames & _ & Hdup & _)|[(text & Heq) _]];
    rewrite Heq in Hcs; [|done].
  injection Hcs as <- <-. by rewrite Homap.
Qed.

Lemma checked_names (c : NewCommand.t) (tc : TakeCommand.t) :
  checked c = Some tc →
  ∃ raw, NewCommand.name c = Some raw
         ∧ TakeCommand.name tc = tidy raw
         ∧ TakeCommand.names tc = Js.trim_split raw
         ∧ TakeCommand.description tc = NewCommand.description c.
Proof.
  unfold checked.
  destruct (NewCommand.name c) as [raw|]; [|done].
  destruct (NewCommand.run c) as [run|]; [|done].
  destruct (NewCommand.flags c) as [| |record]; try done.
  intros [= <-]. by exists raw.
Qed.

Lemma registry_elem (commands : list NewCommand.t) out registry tc :
  validate commands = (out, Returned registry) →
  tc ∈ registry ↔ ∃ c, c ∈ commands ∧ checked c = Some tc.
Proof.
  intros (_ & -> & _)%validate_Returned.
  rewrite toSorted_perm, list_elem_of_omap. naive_solver.
Qed.

(** X7.  Every registered command is found by the words of its name: in
    a registry that passes validation the name of a command is its words
    joined by single spaces, the words are those of the name as it was
    given, and the resolver maps exactly these words to the command, with
    no arguments left. *)
Theorem registered_command_resolves (commands : list NewCommand.t)
    (out : list output) (registry : list TakeCommand.t) (tc : TakeCommand.t) :
  validate commands = (out, Returned registry) →
  tc ∈ registry →
  TakeCommand.name tc = Js.join " " (TakeCommand.names tc)
  ∧ Js.trim_split (TakeCommand.name tc) = TakeCommand.names tc
  ∧ (∃ c raw, c ∈ commands ∧ NewCommand.name c = Some raw
              ∧ TakeCommand.names tc = Js.trim_split raw
              ∧ TakeCommand.description tc = NewCommand.description c)
  ∧ resolve registry (TakeCommand.names tc) = Some (tc, []).
Proof.
  intros Hval Hin.
  pose proof Hin as (c & Hc & Hchecked)%(registry_elem _ _ _ _ Hval).
  destruct (checked_names _ _ Hchecked) as (raw & Hraw & Hname & Hnames & Hdesc).
  assert (TakeCommand.name tc = Js.join " " (TakeCommand.names tc)) as Hjoin
    by by rewrite Hname, Hnames.
  split; [done|]. split; [by rewrite Hname, Hnames, trim_split_tidy|].
  split; [by exists c, raw|].
  assert (NoDup (TakeCommand.name <$> registry)) as Hdup.
  { apply validate_Returned in Hval as (_ & -> & _ & Hdup & _).
    by rewrite toSorted_perm. }
  assert (length (TakeCommand.names tc) ≠ 0%nat) as Hlen.
  { rewrite Hnames. unfold Js.trim_split. by destruct (Js.words raw). }
  unfold resolve.
  destruct (length (TakeCommand.names tc)) as [|n] eqn:Hn; [done|].
  cbn [resolve_from]. rewrite <- Hn, firstn_all, drop_all, <- Hjoin.
  destruct (List.find _ registry) as [tc'|] eqn:Hfind.
  - apply find_named_Some in Hfind as [Hin' Heq].
    f_equal. f_equal.
    apply list_elem_of_lookup in Hin as [i Hi], Hin' as [j Hj].
    assert (i = j) as ->.
    { eapply NoDup_lookup; [exact Hdup| |]; rewrite list_lookup_fmap.
      - by rewrite Hi.
      - rewrite Hj. simpl. by rewrite Heq. }
    congruence.
  - exfalso. eapply find_named_None in Hfind; [|exact Hin]. done.
Qed.

Lemma taken_tidy_names (name : string) (commands : list NewCommand.t) :
  taken {[ name ]} commands → name ∈ tidy_names commands.
Proof.
  intros (c & raw & Hin & Hname & Heq%elem_of_singleton).
  apply list_elem_of_omap. exists c. split; [done|]. rewrite Hname. simpl. by rewrite Heq.
Qed.

Lemma clash_tidy_names (commands : list NewCommand.t) :
  clash commands → ¬ NoDup (tidy_names commands).
Proof.
  induction commands as [|c rest IH].
  - intros (i & j & ci & cj & _ & _ & _ & _ & Hj & _). done.
  - intros [(raw & Hname & Htaken)|Hrest]%clash_cons Hdup.
    + rewrite (tidy_names_cons _ _ _ Hname) in Hdup.
      apply NoDup_cons in Hdup as [Hnot _].
      by apply Hnot, taken_tidy_names.
    + apply IH; [done|]. unfold tidy_names in *. simpl in Hdup.
      destruct (NewCommand.name c); simpl in Hdup; [|done].
      by apply NoDup_cons in Hdup as [_ Hdup].
Qed.

(** The two ways in which [validate] ends. *)
Lemma validate_cases (commands : list NewCommand.t) :
  (validate commands
   = ([], Returned (toSorted (key_ltb TakeCommand.name) (omap checked commands)))
   ∧ NoDup (TakeCommand.name <$> omap checked commands)
   ∧ NoDup (tidy_names commands)
   ∧ commands ≠ []
   ∧ Forall (λ c, ¬ malformed c) commands)
  ∨ ((∃ text, validate commands = ([Line text], Exited 1))
     ∧ (commands = [] ∨ Exists malformed commands
        ∨ ¬ NoDup (tidy_names commands))).
Proof.
  destruct (validate_spec commands)
    as [(tcs & Heq & _ & _ & _ & Hne & Hwell & _)
       |[Hexit [Hnil|[Hmal|Hclash]]]].
  - left. destruct (validate_Returned _ _ _ Heq) as (_ & Hsorted & _ & Hdup & Hnames).
    split; [by rewrite Heq, Hsorted|]. split; [done|].
    split; [by rewrite <- Hnames|done].
  - right. auto.
  - right. auto.
  - right. split; [done|]. right. right. by apply clash_tidy_names.
Qed.

(** X8.  The order in which commands are handed to [Register] does not
    matter: two lists that are permutations of each other are both
    refused with code 1, or both give the same registry. *)
Theorem registration_order (commands1 commands2 : list NewCommand.t) :
  commands1 ≡ₚ commands2 →
  ended (validate commands1) = ended (validate commands2).
Proof.
  intros Hperm.
  destruct (validate_cases commands1)
    as [(Heq1 & Hdup1 & Htidy1 & Hne1 & Hwell1)|[(text1 & Heq1) Hbad1]];
    destruct (validate_cases commands2)
    as [(Heq2 & Hdup2 & Htidy2 & Hne2 & Hwell2)|[(text2 & Heq2) Hbad2]];
    rewrite Heq1, Heq2; simpl.
  - f_equal. apply (StronglySorted_unique_strong (key_lt TakeCommand.name)).
    + intros x1 x2 _ _ H12 H21. unfold key_lt in *.
      apply lt_asym in H12. congruence.
    + by apply toSorted_strict.
    + by apply toSorted_strict.
    + rewrite !toSorted_perm. by apply omap_Permutation.
  - exfalso. destruct Hbad2 as [->|[Hmal|Hdup]].
    + by apply Permutation_nil_r in Hperm.
    + rewrite <- Hperm in Hmal. apply Exists_exists in Hmal as (c & Hin & Hmal).
      rewrite Forall_forall in Hwell1. by eapply Hwell1.
    + apply Hdup. unfold tidy_names in *. by rewrite <- Hperm.
  - exfalso. destruct Hbad1 as [->|[Hmal|Hdup]].
    + symmetry in Hperm. by apply Permutation_nil_r in Hperm.
    + rewrite Hperm in Hmal. apply Exists_exists in Hmal as (c & Hin & Hmal).
      rewrite Forall_forall in Hwell2. by eapply Hwell2.
    + apply Hdup. unfold tidy_names in *. by rewrite Hperm.
  - done.
Qed.

Lemma filter_StronglySorted {A} (R : relation A) (P : A → Prop)
    `{∀ x, Decision (P x)} (l : list A) :
  StronglySorted R l → StronglySorted R (filter P l).
Proof.
  induction 1 as [|x l Hl IH Hall]; [constructor|].
  rewrite filter_cons. destruct (decide (P x)); [|done].
  constructor; [done|].
  apply Forall_forall. intros y [_ Hy]%list_elem_of_filter.
  rewrite Forall_forall in Hall. by apply Hall.
Qed.

(** X9.  The Overview of a registry that passes validation lists the
    commands in ascending order of their tidy names, each once and with
    its description; a command named debug is listed only when the
    variable DEBUG is 1. *)
Theorem overview_listing (commands : list NewCommand.t) (out : list output)
    (registry : list TakeCommand.t) (process_env : gmap string string) :
  validate commands = (out, Returned registry) →
  StronglySorted (λ a b, Js.lt a b = true) (listed registry process_env).*1
  ∧ (∀ name description,
       (name, description) ∈ listed registry process_env
       ↔ ∃ c raw, c ∈ commands ∧ NewCommand.name c = Some raw
                  ∧ name = tidy raw
                  ∧ description = NewCommand.description c
                  ∧ (name ≠ "debug" ∨ process_env !! "DEBUG" = Some "1"))
  ∧ (process_env !! "DEBUG" ≠ Some "1" →
     "debug" ∉ (listed registry process_env).*1).
Proof.
  intros Hval.
  assert (∀ name description,
            (name, description) ∈ listed registry process_env
            ↔ ∃ c raw, c ∈ commands ∧ NewCommand.name c = Some raw
                       ∧ name = tidy raw
                       ∧ description = NewCommand.description c
                       ∧ (name ≠ "debug" ∨ process_env !! "DEBUG" = Some "1"))
    as Hlisted.
  { intros name description. unfold listed.
    rewrite list_elem_of_fmap. split.
    - intros (tc & [= -> ->] & [Hshown Hin]%list_elem_of_filter).
      apply (registry_elem _ _ _ _ Hval) in Hin as (c & Hc & Hchecked).
      destruct (checked_names _ _ Hchecked) as (raw & Hraw & Hname & _ & Hdesc).
      exists c, raw. by rewrite <- Hname.
    - intros (c & raw & Hc & Hraw & -> & -> & Hshown).
      pose proof Hval as (_ & _ & Hall & _)%validate_Returned.
      apply list_elem_of_lookup in Hc as [i Hi].
      destruct (Forall2_lookup_l _ _ _ _ _ Hall Hi) as (tc & _ & Hchecked).
      destruct (checked_names _ _ Hchecked) as (raw' & Hraw' & Hname & _ & Hdesc).
      assert (raw' = raw) as -> by congruence.
      exists tc. split; [by rewrite Hname, Hdesc|].
      apply list_elem_of_filter. split; [by rewrite Hname|].
      apply (registry_elem _ _ _ _ Hval). exists c.
      split; [|done]. by eapply list_elem_of_lookup_2. }
  split; [|split; [done|]].
  - unfold listed. rewrite <- list_fmap_compose.
    apply (StronglySorted_fmap _ (key_lt TakeCommand.name)); [done|].
    apply filter_StronglySorted.
    apply validate_Returned in Hval as (_ & -> & _ & Hdup & _).
    by apply toSorted_strict.
  - intros Hdebug ([name description] & Heq & Hin)%list_elem_of_fmap.
    simpl in Heq. subst name.
    apply Hlisted in Hin as (_ & _ & _ & _ & _ & _ & [Hne|Hone]); done.
Qed.

(** ** The ways in which the parsing of a command line ends *)

Lemma helpFor_bind {A B} c specs msg (k : A → M B) :
  @helpFor A c specs msg ≫= k = @helpFor B c specs msg.
Proof. by destruct msg as [[|]|]. Qed.

Lemma outcome_ret {A} c specs (P : A → Prop) (a : A) :
  P a → outcome c specs P (mret a).
Proof. intros Ha. left. by exists a. Qed.

Lemma outcome_bind {A B} c specs (P : A → Prop) (Q : B → Prop)
    (m : M A) (k : A → M B) :
  outcome c specs P m →
  (∀ a, P a → outcome c specs Q (k a)) →
  outcome c specs Q (m ≫= k).
Proof.
  intros [(a & Ha & ->)|[(e & He & ->)|(msg & Hmsg & ->)]] Hk.
  - rewrite bind_nil. by apply Hk.
  - right. left. by exists e.
  - right. right. exists msg. by rewrite helpFor_bind.
Qed.

Lemma outcome_impl {A} c specs (P Q : A → Prop) (m : M A) :
  outcome c specs P m → (∀ a, P a → Q a) → outcome c specs Q m.
Proof.
  intros [(a & Ha & ->)|[Hthrow|Hhelp]] HPQ.
  - left. exists a. auto.
  - right. by left.
  - right. by right.
Qed.

Lemma convert_typed (s : string) (initial v : value) :
  convert s (typeof initial) = inr v → typeof v = typeof initial.
Proof.
  destruct initial; simpl.
  - rewrite convert_number. destruct (isNaN _); [done|]. by intros [= <-].
  - by intros [= <-].
  - by intros [= <-].
  - done.
Qed.

Lemma find_flag_first (specs : namedFlags_t) long name f :
  find_flag specs long name = Some f → first_named specs f.
Proof.
  intros (pre & post & -> & Hf & Hpre)%find_split.
  exists pre, post. split; [done|].
  intros (g & Heq & Hg)%list_elem_of_fmap.
  apply Hpre in Hg. rewrite <- Heq in Hg. congruence.
Qed.

Lemma first_named_elem (specs : namedFlags_t) f :
  first_named specs f → f ∈ specs.
Proof.
  intros (pre & post & -> & _). apply elem_of_app. right. by left.
Qed.

Lemma first_named_unique (specs : namedFlags_t) f g :
  first_named specs f → first_named specs g →
  namedFlag.name f = namedFlag.name g → f = g.
Proof.
  intros (pre1 & post1 & -> & Hf) (pre2 & post2 & Heq & Hg) Hname.
  revert pre2 Heq Hg. induction pre1 as [|x pre1 IH]; intros [|y pre2] Heq Hg.
  - by injection Heq.
  - injection Heq as -> _. destruct Hg. rewrite <- Hname. by left.
  - injection Heq as <- _. destruct Hf. rewrite Hname. by left.
  - injection Heq as <- Heq. eapply IH; [|exact Heq|].
    + intros Hin. apply Hf. by right.
    + intros Hin. apply Hg. by right.
Qed.

Lemma typed_insert (specs : namedFlags_t) vals f v :
  typed_values specs vals → first_named specs f →
  typeof v = typeof (namedFlag.initial f) →
  typed_values specs (<[namedFlag.name f := v]> vals).
Proof.
  intros Hvals Hf Hv k w.
  destruct (decide (namedFlag.name f = k)) as [<-|Hne].
  - rewrite lookup_insert_eq. intros [= <-]. by exists f.
  - rewrite lookup_insert_ne by done. apply Hvals.
Qed.

Lemma typed_assign (specs : namedFlags_t) vals f v :
  typed_values specs vals → first_named specs f →
  typeof v = typeof (namedFlag.initial f) →
  typed_values specs (assign (namedFlag.name f) v vals).
Proof.
  intros Hvals Hf Hv. unfold assign.
  destruct (String.eqb _ _); [done|]. by apply typed_insert.
Qed.

Lemma parse_arg_outcome c specs st arg :
  typed_state specs st →
  outcome c specs (typed_state specs)
    (parse_arg (λ A, @helpFor A c specs) specs st arg).
Proof.
  intros [Hvals Hnext]. unfold parse_arg.
  destruct (nextFlag st) as [nf|] eqn:Hnf.
  - destruct (convert arg (typeof (namedFlag.initial nf))) as [err|v] eqn:Hconv.
    + right. left. exists (ThrowString err). split; [|done].
      by exists arg, (typeof (namedFlag.initial nf)), err.
    + apply outcome_ret. split; [|done]. simpl.
      apply typed_assign; [done|by apply Hnext|by eapply convert_typed].
  - destruct (flag_marker arg) as [[long name]|].
    + destruct (find_flag specs long name) as [fs|] eqn:Hfind.
      * destruct (is_boolean (namedFlag.initial fs)) eqn:Hbool.
        -- apply outcome_ret. split; [|done]. simpl.
           apply typed_assign; [done|by eapply find_flag_first|].
           by destruct (namedFlag.initial fs).
        -- apply outcome_ret. split; [done|]. simpl.
           intros nf [= <-]. by eapply find_flag_first.
      * right. right. eexists. split; [|done]. right. left. by exists name.
    + apply outcome_ret. split; [done|]. simpl. by intros nf.
Qed.

Lemma parse_args_outcome c specs rest : ∀ st,
  typed_state specs st →
  outcome c specs (typed_state specs)
    (parse_args (λ A, @helpFor A c specs) specs st rest).
Proof.
  induction rest as [|arg rest IH]; intros st Hst.
  - by apply outcome_ret.
  - rewrite parse_args_cons.
    eapply outcome_bind; [by apply parse_arg_outcome|]. apply IH.
Qed.

Lemma set_defaults_outcome process_env c specs rest : ∀ pre vals,
  specs = pre ++ rest →
  typed_values specs vals →
  (∀ g, g ∈ pre → is_Some (vals !! namedFlag.name g)
                  ∨ namedFlag.name g ∈ Object_prototype) →
  outcome c specs
    (λ vals', typed_values specs vals'
              ∧ ∀ g, g ∈ specs → is_Some (vals' !! namedFlag.name g)
                                 ∨ namedFlag.name g ∈ Object_prototype)
    (set_defaults process_env vals rest).
Proof.
  induction rest as [|f rest IH]; intros pre vals Hspecs Hvals Hpre.
  - apply outcome_ret. split; [done|]. rewrite Hspecs, app_nil_r. done.
  - assert (specs = (pre ++ [f]) ++ rest) as Hspecs'
      by by rewrite <- app_assoc.
    change (set_defaults process_env vals (f :: rest))
      with (set_default process_env vals f ≫= λ vals',
            set_defaults process_env vals' rest).
    eapply (outcome_bind _ _
      (λ vals', typed_values specs vals'
                ∧ ∀ g, g ∈ pre ++ [f] →
                       is_Some (vals' !! namedFlag.name g)
                       ∨ namedFlag.name g ∈ Object_prototype)).
    2:{ intros vals' [Hvals' Hpre']. by eapply IH. }
    unfold set_default.
    destruct (has_property (namedFlag.name f) vals) eqn:Hhas.
    + apply has_property_true in Hhas.
      apply outcome_ret. split; [done|].
      intros g [Hg| ->%list_elem_of_singleton]%elem_of_app; auto.
    + apply has_property_false in Hhas as [Hnone Hnot].
      pose proof (not_inherited_other _ Hnot) as Hne.
      assert (first_named specs f) as Hfirst.
      { exists pre, rest. split; [done|].
        intros (g & Heq & Hg)%list_elem_of_fmap.
        destruct (Hpre g Hg) as [[w Hw]|Hin].
        - rewrite <- Heq in Hw. congruence.
        - rewrite <- Heq in Hin. done. }
      assert (∀ v g, g ∈ pre ++ [f] →
                is_Some (<[namedFlag.name f := v]> vals !! namedFlag.name g)
                ∨ namedFlag.name g ∈ Object_prototype)
        as Hdom.
      { intros v g [Hg| ->%list_elem_of_singleton]%elem_of_app.
        - destruct (Hpre g Hg) as [Hsome|Hin]; [left|by right].
          rewrite lookup_insert. by case_decide.
        - left. by rewrite lookup_insert_eq. }
      destruct (env_value process_env (namedFlag.env f)) as [s|].
      * destruct (convert s (typeof (namedFlag.initial f))) as [err|v] eqn:Hconv.
        -- right. left. exists (ThrowString err). split; [|done].
           by exists s, (typeof (namedFlag.initial f)), err.
        -- rewrite assign_other by done.
           apply outcome_ret. split; [|by apply Hdom].
           apply typed_insert; [done|done|by eapply convert_typed].
      * rewrite assign_other by done.
        apply outcome_ret. split; [|by apply Hdom].
        by apply typed_insert.
Qed.

Lemma parse_outcome process_env (c : TakeCommand.t) (rest : list string) :
  outcome c (flagSpecs_of c)
    (λ r, typed_values (flagSpecs_of c) r.1
          ∧ ∀ g, g ∈ flagSpecs_of c →
                 is_Some (r.1 !! namedFlag.name g)
                 ∨ namedFlag.name g ∈ Object_prototype)
    (parse process_env c rest).
Proof.
  unfold parse, command_line. cbv zeta.
  eapply outcome_bind.
  { apply parse_args_outcome. split; [|done]. intros k v Hk.
    simpl in Hk. by rewrite lookup_empty in Hk. }
  intros st [Hvals Hnext].
  eapply (outcome_bind _ _ (λ _, True)).
  { destruct (nextFlag st) as [nf|]; [|by apply outcome_ret].
    right. right. eexists. split; [|done]. right. right. exists nf.
    split; [|done]. by apply first_named_elem, Hnext. }
  intros _ _.
  eapply (outcome_bind _ _ (λ _, True)).
  { destruct (flagVals st !! "help") as [v|]; [|by apply outcome_ret].
    destruct (truthy v); [|by apply outcome_ret].
    right. right. exists None. split; [by left|done]. }
  intros _ _.
  eapply outcome_bind.
  { apply (set_defaults_outcome process_env c (flagSpecs_of c)
             (flagSpecs_of c) []); [done|done|].
    intros g Hg. by apply elem_of_nil in Hg. }
  intros vals Hvals'. by apply outcome_ret.
Qed.

(** X10.  The parsing of the arguments of a command ends in one of three
    ways.  It returns the flag values and the arguments and prints
    nothing; or it throws a string that [convert] made and prints
    nothing; or it prints the Detail view of the command, with no
    message, with the message of an unknown flag or with the message of
    a flag that lacks its value, and exits with code 0. *)
Theorem parse_endings (process_env : gmap string string)
    (c : TakeCommand.t) (rest : list string) :
  (∃ vals cargs, parse process_env c rest = ([], Returned (vals, cargs)))
  ∨ (∃ val type err,
       convert val type = inl err
       ∧ parse process_env c rest = ([], Threw (ThrowString err)))
  ∨ (∃ msg,
       (msg = None
        ∨ (∃ name, msg = Some ("unknown flag " +:+ quoted name))
        ∨ (∃ f, f ∈ flagSpecs_of c
                ∧ msg = Some ("missing value for flag: " +:+ namedFlag.name f)))
       ∧ parse process_env c rest
         = (Detail (TakeCommand.name c) (flag_rows ∅ (flagSpecs_of c))
            :: match msg with
               | Some text => [ErrorLine text; BlankLine]
               | None => []
               end,
            Exited 0)).
Proof.
  destruct (parse_outcome process_env c rest)
    as [([vals cargs] & _ & Heq)
       |[(e & (val & type & err & Hconv & ->) & Heq)|(msg & Hmsg & Heq)]].
  - left. by exists vals, cargs.
  - right. left. by exists val, type, err.
  - right. right. exists msg. split; [done|]. rewrite Heq.
    destruct Hmsg as [->|[(name & ->)|(f & _ & ->)]]; reflexivity.
Qed.

Lemma flagSpecs_names (c : TakeCommand.t) (k : string) :
  k ∈ namedFlag.name <$> flagSpecs_of c
  ↔ is_Some (TakeCommand.flags c !! k) ∨ k = "help".
Proof.
  unfold flagSpecs_of. rewrite fmap_app, elem_of_app, namedFlags_names.
  rewrite list_elem_of_fmap. simpl. rewrite list_elem_of_singleton.
  split; (intros [Hdecl|Hhelp]; [left|by right]).
  - destruct Hdecl as ([k' flag] & -> & Hin%elem_of_map_to_list). by exists flag.
  - destruct Hdecl as [flag Hflag]. exists (k, flag).
    split; [done|]. by apply elem_of_map_to_list.
Qed.

Lemma declared_first_named (c : TakeCommand.t) name flag :
  TakeCommand.flags c !! name = Some flag →
  first_named (flagSpecs_of c) (name_flag (name, flag)).
Proof.
  intros (pre & post & Heq & Hpre)%declared_first. by exists pre, post.
Qed.

Lemma help_first_named (c : TakeCommand.t) :
  TakeCommand.flags c !! "help" = None →
  first_named (flagSpecs_of c) help_flag.
Proof.
  intros Hnone. exists (namedFlags (TakeCommand.flags c)), [].
  split; [done|]. rewrite namedFlags_names.
  intros ([k flag] & Heq & Hin%elem_of_map_to_list)%list_elem_of_fmap.
  simpl in Heq. subst k. congruence.
Qed.

Lemma parse_Returned_help process_env c rest out vals cargs :
  parse process_env c rest = (out, Returned (vals, cargs)) →
  ∃ st, command_line c rest = ([], Returned st)
        ∧ truthy <$> flagVals st !! "help" ≠ Some true
        ∧ set_defaults process_env (flagVals st) (flagSpecs_of c)
          = ([], Returned vals).
Proof.
  unfold parse. intros H.
  apply bind_Returned in H as (out1 & st & out2 & H1 & H2 & ->).
  pose proof H1 as ->%parse_args_Returned.
  apply bind_Returned in H2 as (out3 & [] & out4 & H3 & H4 & ->).
  apply bind_Returned in H4 as (out5 & [] & out6 & H5 & H6 & ->).
  apply bind_Returned in H6 as (out7 & vals7 & out8 & H7 & H8 & ->).
  injection H8 as <- <- <-.
  exists st. split; [done|]. split.
  - destruct (flagVals st !! "help") as [v|]; [|done]. simpl.
    destruct (truthy v); [|done]. by apply helpFor_never_returns in H5.
  - pose proof H7 as (-> & _)%set_defaults_Returned. done.
Qed.

Lemma assign_lookup_proto (name : string) (v : value) (vals : gmap string value) :
  assign name v vals !! "__proto__" = vals !! "__proto__".
Proof.
  unfold assign. destruct (String.eqb_spec name "__proto__") as [->|Hne]; [done|].
  by rewrite lookup_insert_ne.
Qed.

Lemma parse_arg_proto c specs st arg out st' :
  parse_arg (λ A, @helpFor A c specs) specs st arg = (out, Returned st') →
  flagVals st' !! "__proto__" = flagVals st !! "__proto__".
Proof.
  unfold parse_arg.
  destruct (nextFlag st) as [nf|].
  - destruct (convert arg _); [done|]. intros [= _ <-]. simpl.
    apply assign_lookup_proto.
  - destruct (flag_marker arg) as [[long name]|].
    + destruct (find_flag specs long name) as [fs|].
      * destruct (is_boolean _); intros [= _ <-]; simpl; [|done].
        apply assign_lookup_proto.
      * by intros ?%helpFor_never_returns.
    + by intros [= _ <-].
Qed.

Lemma parse_args_proto c specs rest : ∀ st out st',
  parse_args (λ A, @helpFor A c specs) specs st rest = (out, Returned st') →
  flagVals st' !! "__proto__" = flagVals st !! "__proto__".
Proof.
  induction rest as [|arg rest IH]; intros st out st'.
  - by intros [= _ <-].
  - rewrite parse_args_cons.
    intros (out1 & st1 & out2 & Harg & Hrest & _)%bind_Returned.
    rewrite (IH _ _ _ Hrest). by eapply parse_arg_proto.
Qed.

Lemma proto_inherited : "__proto__" ∈ Object_prototype.
Proof. by vm_compute; repeat constructor. Qed.

Lemma help_not_inherited : "help" ∉ Object_prototype.
Proof.
  intros Hin. vm_compute in Hin.
  repeat (apply elem_of_cons in Hin as [Heq|Hin]; [done|]).
  by apply elem_of_nil in Hin.
Qed.

(** X11.  What a handler receives as flag values.  Every entry is under
    the name of a declared flag or under help; there is an entry for
    help and for every declared flag whose name is not one that every
    object inherits; the entry of a declared flag has the type of the
    initial value of the flag; unless a flag named help is declared, the
    value of help is [false]; and there is never an entry under
    [__proto__]. *)
Theorem flag_values_typed (process_env : gmap string string)
    (c : TakeCommand.t) (rest : list string) (out : list output)
    (vals : gmap string value) (cargs : list string) :
  parse process_env c rest = (out, Returned (vals, cargs)) →
  (∀ name, is_Some (vals !! name) →
           is_Some (TakeCommand.flags c !! name) ∨ name = "help")
  ∧ (∀ name, is_Some (TakeCommand.flags c !! name) ∨ name = "help" →
             name ∉ Object_prototype →
             is_Some (vals !! name))
  ∧ (∀ name flag v,
       TakeCommand.flags c !! name = Some flag →
       vals !! name = Some v →
       typeof v = typeof (Flag.initial flag))
  ∧ (TakeCommand.flags c !! "help" = None →
     vals !! "help" = Some (VBoolean false))
  ∧ vals !! "__proto__" = None.
Proof.
  intros Hparse.
  assert (typed_values (flagSpecs_of c) vals
          ∧ ∀ g, g ∈ flagSpecs_of c →
                 is_Some (vals !! namedFlag.name g)
                 ∨ namedFlag.name g ∈ Object_prototype)
    as [Htyped Hall].
  { destruct (parse_outcome process_env c rest)
      as [(r & Hr & Heq)|[(e & _ & Heq)|(msg & _ & Heq)]];
      rewrite Heq in Hparse.
    - by injection Hparse as _ ->.
    - done.
    - by apply helpFor_never_returns in Hparse. }
  destruct (parse_Returned_help _ _ _ _ _ _ Hparse) as (st & Hline & Hhelp & Hdef).
  destruct (set_defaults_Returned _ _ _ _ _ Hdef) as (_ & Hkeep & Hnew & Hsame).
  repeat match goal with |- _ ∧ _ => split end.
  - intros name. rewrite <- flagSpecs_names.
    intros [v (f & Hf%first_named_elem & <- & _)%Htyped].
    apply list_elem_of_fmap. by exists f.
  - intros name. rewrite <- flagSpecs_names.
    intros (g & -> & Hg)%list_elem_of_fmap Hnot.
    by destruct (Hall g Hg).
  - intros name flag v Hflag Hv.
    destruct (Htyped _ _ Hv) as (f & Hf & Hname & Htype).
    rewrite Htype. f_equal.
    assert (f = name_flag (name, flag)) as ->; [|done].
    eapply first_named_unique; [done| |done].
    by apply declared_first_named.
  - intros Hnone.
    pose proof (help_first_named c Hnone) as Hfirst.
    destruct (flagVals st !! "help") as [v|] eqn:Hv.
    + rewrite (Hkeep _ _ Hv). f_equal.
      destruct (parse_args_outcome c (flagSpecs_of c) rest (ParseState ∅ [] None))
        as [(st' & [Hst _] & Heq)|[(e & _ & Heq)|(msg & _ & Heq)]].
      { split; [|done]. intros k w Hk. simpl in Hk.
        by rewrite lookup_empty in Hk. }
      * unfold command_line in Hline. rewrite Heq in Hline.
        injection Hline as ->.
        destruct (Hst _ _ Hv) as (f & Hf & Hname & Htype).
        assert (f = help_flag) as ->
          by by eapply first_named_unique.
        simpl in Hhelp. destruct v as [| |[|]|]; done.
      * unfold command_line in Hline. by rewrite Heq in Hline.
      * unfold command_line in Hline. rewrite Heq in Hline.
        by apply helpFor_never_returns in Hline.
    + destruct Hfirst as (pre & post & Hspecs & Hpre).
      destruct (Hnew pre help_flag post Hspecs Hv help_not_inherited Hpre)
        as (v & Hval & Hfall).
      simpl in Hval. rewrite Hval. by rewrite Hfall.
  - rewrite (Hsame _ proto_inherited).
    unfold command_line in Hline.
    by rewrite (parse_args_proto _ _ _ _ _ _ Hline).
Qed.

(** ** From the command line to the exit code *)

Lemma cmd_eq commands process_env depth args :
  cmd commands process_env depth args
  = cmd_body commands process_env (reenter commands process_env depth) args.
Proof. by destruct depth. Qed.

Lemma resolve_nonempty commands args c rest :
  resolve commands args = Some (c, rest) → args ≠ [].
Proof. by intros Hres ->. Qed.

Lemma head_not (a : string) (args : list string) (text : string) :
  head (a :: args) ≠ Some text → String.eqb a text = false.
Proof. intros Hne. apply String.eqb_neq. intros ->. by apply Hne. Qed.

Lemma convert_inl_nonempty (val type err : string) :
  convert val type = inl err → nonempty err = true.
Proof.
  unfold convert.
  destruct (String.eqb type "string"); [done|].
  destruct (String.eqb type "number").
  - destruct (isNaN _); [|done]. by intros [= <-].
  - destruct (String.eqb type "boolean"); [done|]. by intros [= <-].
Qed.




(** X13.  An error met while the arguments of a resolved command are
    parsed.  A value that does not convert is reported in the Overview,
    with the message of [convert], and the run exits with code 1; when
    the parsing ends in the Detail view of the command, so does the run,
    with the same code. *)
Theorem parse_error_outcome (registry : list TakeCommand.t)
    (process_env : gmap string string) (depth : nat) (args : list string)
    (c : TakeCommand.t) (rest : list string) :
  resolve registry args = Some (c, rest) →
  head args ≠ Some "-h" → head args ≠ Some "--help" →
  (∀ out e,
     parse process_env c rest = (out, Threw e) →
     ∃ val type err,
       convert val type = inl err ∧ e = ThrowString err ∧ out = []
       ∧ root registry process_env depth args
         = ([Overview (listed registry process_env); ErrorLine err; BlankLine],
            Exited 1))
  ∧ (∀ out code,
       parse process_env c rest = (out, Exited code) →
       code = 0
       ∧ head out = Some (Detail (TakeCommand.name c)
                            (flag_rows ∅ (flagSpecs_of c)))
       ∧ root registry process_env depth args = (out, Exited 0)).
Proof.
  intros Hres Hh Hhelp.
  pose proof (resolve_nonempty _ _ _ _ Hres) as Hne.
  destruct args as [|a args]; [done|].
  assert (∀ out e, parse process_env c rest = (out, e) →
            root registry process_env depth (a :: args)
            = try_catch
                ((out, e) ≫= λ '(vals, cargs),
                   try_catch
                     (TakeCommand.run c
                        (input_of registry process_env depth c vals cargs))
                     (λ err,
                        (match err with
                         | ThrowString s => helpFor c (flagSpecs_of c) (Some s)
                         | _ => mret tt
                         end);;
                        throw err);;
                   console_log (RanIn (TakeCommand.name c)))
                (λ err,
                   match err with
                   | ThrowString s => help registry process_env (Some s)
                   | ThrowObject (Some code) _ => process_exit code
                   | ThrowObject None text =>
                       match exit_with text with
                       | Some x => process_exit_number x
                       | None =>
                           console_log (Line ("ERROR: " +:+ text +:+ newline));;
                           process_exit 1
                       end
                   | ThrowOther => process_exit 1
                   end)) as Hroot.
  { intros out e Hparse. unfold root.
    rewrite (head_not _ _ _ Hh), (head_not _ _ _ Hhelp).
    cbn [orb]. rewrite bind_ret.
    rewrite cmd_eq. unfold cmd_body. by rewrite bind_ret, Hres, Hparse. }
  split.
  - intros out e Hparse. rewrite (Hroot _ _ Hparse).
    destruct (parse_outcome process_env c rest)
      as [(r & _ & Heq)
         |[(e' & (val & type & err & Hconv & ->) & Heq)|(msg & _ & Heq)]];
      rewrite Heq in Hparse.
    + done.
    + injection Hparse as <- <-. exists val, type, err.
      repeat (split; [done|]). simpl.
      apply convert_inl_nonempty in Hconv. by destruct err.
    + by destruct msg as [[|]|].
  - intros out code Hparse. rewrite (Hroot _ _ Hparse).
    destruct (parse_outcome process_env c rest)
      as [(r & _ & Heq)|[(e' & _ & Heq)|(msg & _ & Heq)]];
      rewrite Heq in Hparse.
    + done.
    + done.
    + destruct msg as [[|]|]; injection Hparse as <- <-; done.
Qed.

(** ** Tokens that are not flags *)

Lemma parse_arg_cmdArgs c specs st arg out st' :
  parse_arg (λ A, @helpFor A c specs) specs st arg = (out, Returned st') →
  cmdArgs st' = cmdArgs st
  ∨ (cmdArgs st' = cmdArgs st ++ [arg] ∧ positional arg).
Proof.
  unfold parse_arg, positional.
  destruct (nextFlag st) as [nf|].
  - destruct (convert arg _); [done|]. intros [= _ <-]. by left.
  - destruct (flag_marker arg) as [[long name]|].
    + destruct (find_flag specs long name) as [fs|].
      * destruct (is_boolean _); intros [= _ <-]; by left.
      * by intros ?%helpFor_never_returns.
    + intros [= _ <-]. by right.
Qed.

Lemma parse_args_cmdArgs c specs rest : ∀ st out st',
  parse_args (λ A, @helpFor A c specs) specs st rest = (out, Returned st') →
  ∃ more, cmdArgs st' = cmdArgs st ++ more
          ∧ more `sublist_of` rest ∧ Forall positional more.
Proof.
  induction rest as [|arg rest IH]; intros st out st'.
  - intros [= _ <-]. exists []. by rewrite app_nil_r.
  - rewrite parse_args_cons.
    intros (out1 & st1 & out2 & Harg & Hrest & _)%bind_Returned.
    apply IH in Hrest as (more & Heq & Hsub & Hall).
    apply parse_arg_cmdArgs in Harg as [Hsame|[Hpush Hpos]].
    + exists more. rewrite Heq, Hsame. split; [done|].
      split; [by apply sublist_cons|done].
    + exists (arg :: more). rewrite Heq, Hpush, <- app_assoc.
      split; [done|]. split; [by apply sublist_skip|by constructor].
Qed.

Lemma parse_args_positional cmdHelp specs vals rest : ∀ cargs,
  Forall positional rest →
  parse_args cmdHelp specs (ParseState vals cargs None) rest
  = mret (ParseState vals (cargs ++ rest) None).
Proof.
  induction rest as [|arg rest IH]; intros cargs Hall.
  - by rewrite app_nil_r.
  - inversion Hall as [|? ? Harg Hrest]; subst.
    rewrite parse_args_cons. unfold parse_arg. simpl.
    unfold positional in Harg. rewrite Harg, bind_ret, IH by done.
    by rewrite <- app_assoc.
Qed.

(** X14.  The arguments that a handler receives are tokens of the
    command line in their order, none of which reads as a flag; when no
    token reads as a flag, the handler receives all of them and no flag
    is set.  A token that does not start with a dash never reads as a
    flag. *)
Theorem positional_arguments (c : TakeCommand.t) (rest : list string) :
  (∀ out st,
     command_line c rest = (out, Returned st) →
     cmdArgs st `sublist_of` rest ∧ Forall positional (cmdArgs st))
  ∧ (Forall positional rest →
     command_line c rest = ([], Returned (ParseState ∅ rest None)))
  ∧ (∀ arg, Js.first_char arg ≠ Some "-"%char → positional arg)
  ∧ positional "-".
Proof.
  split; [|split; [|split]].
  - intros out st (more & Heq & Hsub & Hall)%parse_args_cmdArgs.
    simpl in Heq. by rewrite Heq.
  - intros Hall. unfold command_line.
    by rewrite parse_args_positional.
  - intros [|a r] Hfirst; [done|]. unfold positional. simpl.
    destruct (Ascii.eqb_spec a "-") as [->|Hne]; [done|].
    destruct a as [[] [] [] [] [] [] [] []]; done.
  - done.
Qed.

(** ** Short tokens *)

Lemma short_match_test (cluster : string) (f : namedFlag.t) :
  match Js.first_char (namedFlag.name f) with
  | Some l => bool_decide (l ∈ Js.letters cluster)
  | None => false
  end = true
  ↔ short_match cluster f.
Proof.
  unfold short_match. destruct (Js.first_char (namedFlag.name f)) as [l|].
  - rewrite bool_decide_eq_true. split.
    + intros Hin. by exists l.
    + by intros (l' & [= <-] & Hin).
  - split; [done|]. by intros (l & Heq & _).
Qed.

Lemma find_none_iff {A} (p : A → bool) (l : list A) :
  List.find p l = None ↔ ∀ x, x ∈ l → p x = false.
Proof.
  induction l as [|y l IH]; simpl.
  - split; [|done]. intros _ x Hx. by apply elem_of_nil in Hx.
  - destruct (p y) eqn:Hy.
    + split; [done|]. intros Hall. rewrite Hall in Hy; [done|by left].
    + rewrite IH. split.
      * intros Hall x [->|Hx]%elem_of_cons; auto.
      * intros Hall x Hx. apply Hall. by right.
Qed.

Lemma find_ext_in {A} (p q : A → bool) (l : list A) :
  (∀ x, x ∈ l → p x = q x) → List.find p l = List.find q l.
Proof.
  induction l as [|y l IH]; intros Hpq; [done|]. simpl.
  rewrite <- (Hpq y) by by left.
  destruct (p y); [done|]. apply IH. intros x Hx. apply Hpq. by right.
Qed.

(** X15.  A short token selects one flag, whatever the number of its
    letters: the first flag, in the order of the flag list, whose first
    letter is among the letters of the token.  No flag is found exactly
    when no flag starts with one of the letters, and the order and the
    repetition of the letters do not matter. *)
Theorem short_token_selects_first (specs : namedFlags_t) (cluster : string) :
  (find_flag specs false cluster = None
   ↔ ∀ f, f ∈ specs → ¬ short_match cluster f)
  ∧ (∀ fs,
       find_flag specs false cluster = Some fs
       ↔ ∃ pre post, specs = pre ++ fs :: post
                     ∧ short_match cluster fs
                     ∧ ∀ g, g ∈ pre → ¬ short_match cluster g)
  ∧ (∀ cluster',
       (∀ l, l ∈ Js.letters cluster ↔ l ∈ Js.letters cluster') →
       find_flag specs false cluster' = find_flag specs false cluster).
Proof.
  split; [|split].
  - unfold find_flag. rewrite find_none_iff. simpl.
    split; intros Hall f Hf.
    + rewrite <- short_match_test. by rewrite (Hall f Hf).
    + apply not_true_is_false. rewrite short_match_test. by apply Hall.
  - intros fs. unfold find_flag. simpl. split.
    + intros (pre & post & -> & Hfs & Hpre)%find_split.
      exists pre, post. split; [done|]. split; [by apply short_match_test|].
      intros g Hg. rewrite <- short_match_test. by rewrite (Hpre g Hg).
    + intros (pre & post & -> & Hfs & Hpre). apply find_first.
      * by apply short_match_test.
      * intros g Hg. apply not_true_is_false. rewrite short_match_test.
        by apply Hpre.
  - intros cluster' Hsame. unfold find_flag. simpl.
    apply find_ext_in. intros f _.
    destruct (Js.first_char (namedFlag.name f)) as [l|]; [|done].
    apply bool_decide_ext. by rewrite Hsame.
Qed.

(** ** The values that the command line sets *)

Lemma assign_lookup_Some name v (vals : gmap string value) k w :
  assign name v vals !! k = Some w →
  vals !! k = Some w ∨ (k = name ∧ w = v).
Proof.
  unfold assign. destruct (String.eqb _ _); [auto|].
  destruct (decide (name = k)) as [->|Hne].
  - rewrite lookup_insert_eq. intros [= <-]. auto.
  - rewrite lookup_insert_ne by done. auto.
Qed.

Lemma parse_arg_explicit c specs st arg out st' :
  (∀ nf, nextFlag st = Some nf → is_boolean (namedFlag.initial nf) = false) →
  parse_arg (λ A, @helpFor A c specs) specs st arg = (out, Returned st') →
  (∀ nf, nextFlag st' = Some nf → is_boolean (namedFlag.initial nf) = false)
  ∧ ∀ k v, flagVals st' !! k = Some v →
           flagVals st !! k = Some v
           ∨ v = VBoolean true
           ∨ ∃ val nf, is_boolean (namedFlag.initial nf) = false
                       ∧ convert val (typeof (namedFlag.initial nf)) = inr v.
Proof.
  intros Hnext. unfold parse_arg.
  destruct (nextFlag st) as [nf|] eqn:Hnf.
  - destruct (convert arg _) as [err|w] eqn:Hconv; [done|].
    intros [= _ <-]. simpl. split; [done|]. intros k v.
    intros [Hold|[-> ->]]%assign_lookup_Some; [auto|].
    right. right. exists arg, nf. split; [by apply Hnext|done].
  - destruct (flag_marker arg) as [[long name]|].
    + destruct (find_flag specs long name) as [fs|].
      * destruct (is_boolean (namedFlag.initial fs)) eqn:Hbool;
          intros [= _ <-]; simpl.
        -- split; [done|]. intros k v.
           intros [Hold|[-> ->]]%assign_lookup_Some; auto.
        -- split; [|auto]. by intros nf [= <-].
      * by intros ?%helpFor_never_returns.
    + intros [= _ <-]. simpl. split; [done|auto].
Qed.

Lemma parse_args_explicit c specs rest : ∀ st out st',
  (∀ nf, nextFlag st = Some nf → is_boolean (namedFlag.initial nf) = false) →
  parse_args (λ A, @helpFor A c specs) specs st rest = (out, Returned st') →
  ∀ k v, flagVals st' !! k = Some v →
         flagVals st !! k = Some v
         ∨ v = VBoolean true
         ∨ ∃ val nf, is_boolean (namedFlag.initial nf) = false
                     ∧ convert val (typeof (namedFlag.initial nf)) = inr v.
Proof.
  induction rest as [|arg rest IH]; intros st out st' Hnext.
  - intros [= _ <-]. auto.
  - rewrite parse_args_cons.
    intros (out1 & st1 & out2 & Harg & Hrest & _)%bind_Returned k v Hv.
    destruct (parse_arg_explicit _ _ _ _ _ _ Hnext Harg) as [Hnext1 Hvals1].
    destruct (IH _ _ _ Hnext1 Hrest k v Hv) as [Hold|Hnew]; auto.
Qed.

Lemma convert_value (val : string) (initial v : value) :
  is_boolean initial = false →
  convert val (typeof initial) = inr v →
  (∃ s, v = VString s) ∨ (∃ n, v = VNumber n ∧ isNaN n = false).
Proof.
  destruct initial; simpl; try done.
  - rewrite convert_number. destruct (isNaN _) eqn:Hnan; [done|].
    intros _ [= <-]. right. eauto.
  - intros _ [= <-]. left. eauto.
Qed.

Lemma explicit_value (c : TakeCommand.t) (rest : list string) out st k v :
  command_line c rest = (out, Returned st) →
  flagVals st !! k = Some v →
  v = VBoolean true
  ∨ (∃ s, v = VString s)
  ∨ (∃ n, v = VNumber n ∧ isNaN n = false).
Proof.
  intros Hline Hv. unfold command_line in Hline.
  eapply parse_args_explicit in Hline as [Hold|[->|(val & nf & Hnf & Hconv)]];
    [| | |done|exact Hv].
  - simpl in Hold. by rewrite lookup_empty in Hold.
  - by left.
  - right. by eapply convert_value.
Qed.

Lemma command_line_typed (c : TakeCommand.t) (rest : list string) out st :
  command_line c rest = (out, Returned st) → typed_state (flagSpecs_of c) st.
Proof.
  intros Hline. unfold command_line in Hline.
  destruct (parse_args_outcome c (flagSpecs_of c) rest (ParseState ∅ [] None))
    as [(st' & Hst & Heq)|[(e & _ & Heq)|(msg & _ & Heq)]].
  { split; [|done]. intros k w Hk. simpl in Hk.
    by rewrite lookup_empty in Hk. }
  - rewrite Heq in Hline. by injection Hline as _ <-.
  - by rewrite Heq in Hline.
  - rewrite Heq in Hline. by apply helpFor_never_returns in Hline.
Qed.

Lemma explicit_typed (c : TakeCommand.t) (rest : list string) out st
    name flag w :
  command_line c rest = (out, Returned st) →
  TakeCommand.flags c !! name = Some flag →
  flagVals st !! name = Some w →
  typeof w = typeof (Flag.initial flag).
Proof.
  intros [Hvals _]%command_line_typed Hflag Hw.
  destruct (Hvals _ _ Hw) as (f & Hf & Hname & ->).
  assert (f = name_flag (name, flag)) as ->; [|done].
  eapply first_named_unique; [done| |done].
  by apply declared_first_named.
Qed.

(** X16.  A boolean flag can be switched on and never off.  For a flag
    whose name is not one that every object inherits, the handler
    receives [true] when the flag is on the command line, and also when
    the variable of the flag holds any text that is not empty, be it
    [false] or [0]; otherwise it receives the initial value.  For a flag
    with an inherited name the handler receives what the command line
    has set, which can only be [true], and no value otherwise. *)
Theorem boolean_flag_value (process_env : gmap string string)
    (c : TakeCommand.t) (rest : list string) (out : list output)
    (vals : gmap string value) (cargs : list string)
    (name : string) (flag : Flag.t) :
  parse process_env c rest = (out, Returned (vals, cargs)) →
  TakeCommand.flags c !! name = Some flag →
  is_boolean (Flag.initial flag) = true →
  ∃ st,
    command_line c rest = ([], Returned st)
    ∧ (name ∉ Object_prototype →
       vals !! name
       = Some (if bool_decide (is_Some (flagVals st !! name)
                               ∨ is_Some (env_value process_env (Flag.env flag)))
               then VBoolean true
               else Flag.initial flag))
    ∧ (name ∈ Object_prototype →
       vals !! name = flagVals st !! name
       ∧ (vals !! name = None ∨ vals !! name = Some (VBoolean true))).
Proof.
  intros Hparse Hflag Hbool.
  destruct (parse_flag_values _ _ _ _ _ _ Hparse) as (st & Hline & _ & Hvals).
  exists st. split; [done|].
  assert (∀ w, flagVals st !! name = Some w → w = VBoolean true) as Hexplicit.
  { intros w Hw.
    pose proof (explicit_typed _ _ _ _ _ _ _ Hline Hflag Hw) as Htype.
    destruct (explicit_value _ _ _ _ _ _ Hline Hw)
      as [->|[(s & ->)|(n & -> & _)]]; [done| |];
      by destruct (Flag.initial flag). }
  split.
  - intros Hnot.
    destruct (proj1 (Hvals _ _ Hflag) Hnot) as (v & -> & Hv). f_equal.
    destruct (flagVals st !! name) as [w|] eqn:Hw.
    + subst v. rewrite bool_decide_eq_true_2 by (left; eauto).
      by apply Hexplicit.
    + unfold fallback in Hv.
      destruct (env_value process_env (Flag.env flag)) as [s|] eqn:Henv.
      * rewrite bool_decide_eq_true_2 by (right; eauto).
        destruct (Flag.initial flag); try done. simpl in Hv.
        injection Hv as <-.
        destruct (Flag.env flag) as [e|]; [|done].
        apply env_value_Some in Henv as (_ & _ & Hs). by destruct s.
      * rewrite bool_decide_eq_false_2; [done|].
        intros [[? ?]|[? ?]]; done.
  - intros Hin. rewrite (proj2 (Hvals _ _ Hflag) Hin). split; [done|].
    destruct (flagVals st !! name) as [w|]; [|by left].
    right. f_equal. by apply Hexplicit.
Qed.

(** X17.  A flag whose initial value is a [Date] cannot be set: a value
    for it on the command line is refused with the message of an unknown
    type, and so is a value in its variable unless the name of the flag
    is one that every object inherits.  A handler that runs receives the
    initial value, or no value when the name is inherited. *)
Theorem object_flag_keeps_initial (process_env : gmap string string)
    (c : TakeCommand.t) (rest : list string) (out : list output)
    (vals : gmap string value) (cargs : list string)
    (name : string) (flag : Flag.t) :
  parse process_env c rest = (out, Returned (vals, cargs)) →
  TakeCommand.flags c !! name = Some flag →
  typeof (Flag.initial flag) = "object" →
  (name ∉ Object_prototype →
   vals !! name = Some (Flag.initial flag)
   ∧ env_value process_env (Flag.env flag) = None)
  ∧ (name ∈ Object_prototype → vals !! name = None)
  ∧ (∀ cmdHelp specs vals' cargs' arg,
       parse_arg cmdHelp specs
         (ParseState vals' cargs' (Some (name_flag (name, flag)))) arg
       = throw (ThrowString "unknown type: object"))
  ∧ (∀ process_env' vals' s,
       env_value process_env' (Flag.env flag) = Some s →
       vals' !! name = None →
       name ∉ Object_prototype →
       set_default process_env' vals' (name_flag (name, flag))
       = throw (ThrowString "unknown type: object")).
Proof.
  intros Hparse Hflag Hobject.
  destruct (parse_flag_values _ _ _ _ _ _ Hparse) as (st & Hline & _ & Hvals).
  assert (flagVals st !! name = None) as Hnone.
  { destruct (flagVals st !! name) as [w|] eqn:Hw; [|done].
    pose proof (explicit_typed _ _ _ _ _ _ _ Hline Hflag Hw) as Htype.
    rewrite Hobject in Htype.
    by destruct (explicit_value _ _ _ _ _ _ Hline Hw)
      as [->|[(s & ->)|(n & -> & _)]]. }
  split; [|split; [|split]].
  - intros Hnot.
    destruct (proj1 (Hvals _ _ Hflag) Hnot) as (v & Hv & Hfrom).
    rewrite Hnone in Hfrom. unfold fallback in Hfrom.
    destruct (env_value process_env (Flag.env flag)) as [s|].
    + by rewrite Hobject in Hfrom.
    + by rewrite Hv, Hfrom.
  - intros Hin. by rewrite (proj2 (Hvals _ _ Hflag) Hin).
  - intros cmdHelp specs vals' cargs' arg. unfold parse_arg. simpl.
    by rewrite Hobject.
  - intros process_env' vals' s Henv Hunset Hnot. unfold set_default. simpl.
    rewrite (proj2 (has_property_false _ _)) by done.
    by rewrite Henv, Hobject.
Qed.

(** X18.  A flag whose initial value is a number reaches the handler as
    a number, and this number is [NaN] only when it is the initial value
    itself; there is such a value whenever the name of the flag is not
    one that every object inherits.  A value that the command line sets
    is kept for the handler and is [true], a string, or a number that is
    not [NaN]. *)
Theorem number_flag_value (process_env : gmap string string)
    (c : TakeCommand.t) (rest : list string) (out : list output)
    (vals : gmap string value) (cargs : list string) :
  parse process_env c rest = (out, Returned (vals, cargs)) →
  (∀ name flag v,
     TakeCommand.flags c !! name = Some flag →
     typeof (Flag.initial flag) = "number" →
     vals !! name = Some v →
     ∃ n, v = VNumber n ∧ (isNaN n = false ∨ Flag.initial flag = VNumber n))
  ∧ (∀ name flag,
       TakeCommand.flags c !! name = Some flag →
       typeof (Flag.initial flag) = "number" →
       name ∉ Object_prototype →
       ∃ n, vals !! name = Some (VNumber n))
  ∧ ∃ st, command_line c rest = ([], Returned st)
          ∧ ∀ k v, flagVals st !! k = Some v →
                   vals !! k = Some v
                   ∧ (v = VBoolean true
                      ∨ (∃ s, v = VString s)
                      ∨ (∃ n, v = VNumber n ∧ isNaN n = false)).
Proof.
  intros Hparse.
  destruct (parse_flag_values _ _ _ _ _ _ Hparse) as (st & Hline & _ & Hvals).
  assert (∀ name flag v,
            TakeCommand.flags c !! name = Some flag →
            typeof (Flag.initial flag) = "number" →
            vals !! name = Some v →
            ∃ n, v = VNumber n
                 ∧ (isNaN n = false ∨ Flag.initial flag = VNumber n)) as Hnum.
  { intros name flag v Hflag Hnumber Hv.
    assert (∀ w, flagVals st !! name = Some w →
                 ∃ n, w = VNumber n ∧ isNaN n = false) as Hexplicit.
    { intros w Hw.
      pose proof (explicit_typed _ _ _ _ _ _ _ Hline Hflag Hw) as Htype.
      rewrite Hnumber in Htype.
      destruct (explicit_value _ _ _ _ _ _ Hline Hw)
        as [->|[(s & ->)|(n & -> & Hn)]]; try done.
      by exists n. }
    destruct (decide (name ∈ Object_prototype)) as [Hin|Hnot].
    - rewrite (proj2 (Hvals _ _ Hflag) Hin) in Hv.
      destruct (Hexplicit _ Hv) as (n & -> & Hn). exists n. auto.
    - destruct (proj1 (Hvals _ _ Hflag) Hnot) as (v' & Hv' & Hfrom).
      assert (v' = v) as -> by congruence.
      destruct (flagVals st !! name) as [w|] eqn:Hw.
      + subst w. destruct (Hexplicit _ eq_refl) as (n & -> & Hn).
        exists n. auto.
      + unfold fallback in Hfrom.
        destruct (env_value process_env (Flag.env flag)) as [s|].
        * rewrite Hnumber, convert_number in Hfrom.
          destruct (isNaN (parseFloat s)) eqn:Hnan; [done|].
          injection Hfrom as <-. exists (parseFloat s). auto.
        * subst v. destruct (Flag.initial flag) as [n| | |]; try done.
          exists n. auto. }
  split; [exact Hnum|]. split.
  - intros name flag Hflag Hnumber Hnot.
    destruct (proj1 (Hvals _ _ Hflag) Hnot) as (v & Hv & _).
    destruct (Hnum _ _ _ Hflag Hnumber Hv) as (n & -> & _). by exists n.
  - exists st. split; [done|]. intros k v Hv. split.
    + destruct (parse_Returned _ _ _ _ _ _ Hparse) as (st' & Hline' & _ & _ & Hdef).
      rewrite Hline in Hline'. injection Hline' as <-.
      destruct (set_defaults_Returned _ _ _ _ _ Hdef) as (_ & Hkeep & _).
      by apply Hkeep.
    + by eapply explicit_value.
Qed.

Lemma assign_assign name v1 v2 (vals : gmap string value) :
  assign name v2 (assign name v1 vals) = assign name v2 vals.
Proof.
  unfold assign. destruct (String.eqb _ _); [done|]. by rewrite insert_insert_eq.
Qed.

Lemma parse_arg_value cmdHelp specs vals cargs nf arg :
  parse_arg cmdHelp specs (ParseState vals cargs (Some nf)) arg
  = match convert arg (typeof (namedFlag.initial nf)) with
    | inl err => throw (ThrowString err)
    | inr v => mret (ParseState (assign (namedFlag.name nf) v vals) cargs None)
    end.
Proof. done. Qed.

(** X19.  When a flag that takes a value is given twice, the later value
    is the one kept; the earlier value must still convert.  The token
    after the flag is its value whatever it looks like. *)
Theorem repeated_flag_last_wins
    (cmdHelp : ∀ A, option string → M A) (specs : namedFlags_t)
    (vals : gmap string value) (cargs : list string)
    (tok : string) (long : bool) (name : string) (fs : namedFlag.t)
    (first second : string) (v : value) (more : list string) :
  flag_marker tok = Some (long, name) →
  find_flag specs long name = Some fs →
  is_boolean (namedFlag.initial fs) = false →
  convert first (typeof (namedFlag.initial fs)) = inr v →
  parse_args cmdHelp specs (ParseState vals cargs None)
    (tok :: first :: tok :: second :: more)
  = parse_args cmdHelp specs (ParseState vals cargs None)
      (tok :: second :: more).
Proof.
  intros Hmarker Hfind Hbool Hfirst.
  rewrite !(parse_args_cons _ _ _ tok).
  rewrite !(parse_arg_marker _ _ _ _ _ _ _ _ Hmarker Hfind), Hbool, !bind_ret.
  rewrite (parse_args_cons _ _ _ first), parse_arg_value, Hfirst, bind_ret.
  rewrite (parse_args_cons _ _ _ tok).
  rewrite (parse_arg_marker _ _ _ _ _ _ _ _ Hmarker Hfind), Hbool, bind_ret.
  rewrite !(parse_args_cons _ _ _ second), !parse_arg_value.
  destruct (convert second _) as [err|v2]; [done|].
  by rewrite !bind_ret, assign_assign.
Qed.

(** ** The file of variables and the flags *)

Lemma load_content_plain (kvs : list (string * string))
    (process_env : gmap string string) :
  Forall (λ kv, plain_key kv.1 ∧ plain_value kv.2) kvs →
  load_content (Js.join newline (assignment <$> kvs)) process_env
  = fold_left (λ e kv, <[kv.1 := kv.2]> e) kvs process_env.
Proof.
  intros Hall. unfold load_content. destruct kvs as [|kv kvs]; [done|].
  rewrite split_lines_join; [by apply load_lines_plain|done|].
  apply Forall_fmap. eapply Forall_impl; [exact Hall|].
  intros [k v] [Hk Hv]. by apply assignment_no_LF.
Qed.

Lemma fold_insert_lookup (kvs : list (string * string)) (e : string) :
  ∀ env : gmap string string,
    e ∉ kvs.*1 →
    fold_left (λ env kv, <[kv.1 := kv.2]> env) kvs env !! e = env !! e.
Proof.
  induction kvs as [|[k v] kvs IH]; intros env Hnot; [done|].
  simpl. rewrite IH.
  - rewrite lookup_insert_ne; [done|]. intros ->. apply Hnot. by left.
  - intros Hin. apply Hnot. by right.
Qed.

(** X20.  In a [.env] file of plain lines [key=value], the last line for
    the variable of a flag supplies the flag, when its value is not
    empty, the command line does not set the flag and the name of the
    flag is not one that every object inherits, whatever the process
    environment held for the variable: the handler receives the
    converted text of that line. *)
Theorem env_file_supplies_flag (pre post : list (string * string))
    (e s : string) (process_env : gmap string string) (c : TakeCommand.t)
    (rest : list string) (out : list output) (vals : gmap string value)
    (cargs : list string) (st : parse_state) (name : string) (flag : Flag.t) :
  Forall (λ kv, plain_key kv.1 ∧ plain_value kv.2) (pre ++ (e, s) :: post) →
  e ∉ post.*1 →
  s ≠ "" →
  TakeCommand.flags c !! name = Some flag →
  Flag.env flag = Some e →
  name ∉ Object_prototype →
  parse (loadEnvFile
           (Some (Js.join newline (assignment <$> pre ++ (e, s) :: post)))
           process_env).1 c rest
  = (out, Returned (vals, cargs)) →
  command_line c rest = ([], Returned st) →
  flagVals st !! name = None →
  ∃ v, convert s (typeof (Flag.initial flag)) = inr v ∧ vals !! name = Some v.
Proof.
  intros Hall Hlast Hs Hflag Henv Hnot Hparse Hline Hunset.
  unfold loadEnvFile in Hparse. simpl in Hparse.
  rewrite load_content_plain in Hparse by done.
  rewrite fold_left_app in Hparse. simpl in Hparse.
  destruct (parse_flag_values _ _ _ _ _ _ Hparse) as (st' & Hline' & _ & Hvals).
  rewrite Hline in Hline'. injection Hline' as <-.
  destruct (proj1 (Hvals _ _ Hflag) Hnot) as (v & Hv & Hfrom).
  rewrite Hunset in Hfrom. unfold fallback in Hfrom.
  assert (env_value
            (fold_left (λ env kv, <[kv.1 := kv.2]> env) post
               (<[e := s]> (fold_left (λ env kv, <[kv.1 := kv.2]> env)
                              pre process_env)))
            (Flag.env flag)
          = Some s) as Hvalue.
  { rewrite Henv. apply env_value_Some. split; [|split; [|done]].
    - apply Forall_app in Hall as [_ Hrest].
      apply Forall_cons in Hrest as [[(Hne & _) _] _]. done.
    - rewrite fold_insert_lookup by done. by rewrite lookup_insert_eq. }
  rewrite Hvalue in Hfrom. by exists v.
Qed.

(** ** Validation comes first *)

(** X21.  A list of commands that fails validation stops every run, with
    any arguments, also a request for help: one line is printed and the
    exit code is 1. *)
Theorem invalid_registry_stops_every_run (commands : list NewCommand.t) :
  commands = [] ∨ Exists malformed commands ∨ clash commands →
  ∃ text, ∀ depth process_env args,
    Register depth commands process_env args = ([Line text], Exited 1).
Proof.
  intros Hbad.
  destruct (validate_spec commands)
    as [(tcs & _ & _ & _ & _ & Hne & Hwell & Hclash)|[(text & Heq) _]].
  - exfalso. destruct Hbad as [->|[Hmal|Hbad]]; [done| |done].
    apply Exists_exists in Hmal as (c & Hin & Hmal).
    rewrite Forall_forall in Hwell. by eapply Hwell.
  - exists text. intros depth process_env args.
    unfold Register. by rewrite Heq.
Qed.

(** ** Instances *)

Lemma env_file_round_trip_witness :
  (loadEnvFile
     (Some (Js.join newline
              (assignment <$> [("PORT", "8080"); ("NAME", "a b"); ("PORT", "9090")])))
     {[ "PORT" := "1" ]}).1 !! "PORT"
  = Some "9090".
Proof.
  refine (proj2 (env_file_round_trip
                   [("PORT", "8080"); ("NAME", "a b"); ("PORT", "9090")]
                   {[ "PORT" := "1" ]} _)
            [("PORT", "8080"); ("NAME", "a b")] "PORT" "9090" eq_refl).
  repeat constructor; try done; by intros c [= <-].
Defined.

Lemma env_file_inert_lines_witness :
  loadEnvFile (Some (Js.join newline ["# PORT=1"; ""; "NAME"; "=x"]))
    {[ "PORT" := "8080" ]}
  = ({[ "PORT" := "8080" ]}, true).
Proof.
  apply env_file_inert_lines.
  change (split_lines (Js.join newline ["# PORT=1"; ""; "NAME"; "=x"]))
    with ["# PORT=1"; ""; "NAME"; "=x"].
  apply Forall_cons_2; [right; by left|].
  apply Forall_cons_2; [by left|].
  apply Forall_cons_2.
  { right. right. left. change (trim "NAME") with "NAME".
    intros Hin.
    repeat (apply elem_of_cons in Hin as [Heq|Hin]; [done|]).
    by apply elem_of_nil in Hin. }
  apply Forall_cons_2; [right; right; by right|].
  apply Forall_nil_2.
Defined.

Lemma env_file_frame_witness :
  (loadEnvFile (Some "A=1") {[ "B" := "2" ]}).1 !! "B"
  = ({[ "B" := "2" ]} : gmap string string) !! "B".
Proof.
  apply (env_file_frame (Some "A=1") {[ "B" := "2" ]} "B").
  intros content line k v [= <-] Hin%list_elem_of_singleton Hmatch.
  subst line. injection Hmatch as <- _. done.
Defined.

Lemma env_file_quoted_value_witness :
  loadEnvFile
    (Some ("NAME" +:+ "=" +:+ String dquote_char (" a b " +:+ String dquote_char "")))
    ∅
  = (<["NAME" := " a b "]> ∅, true).
Proof.
  apply env_file_quoted_value; [|by left|done].
  repeat split; try done; by intros c [= <-].
Defined.

Lemma registered_command_resolves_witness :
  resolve [db_command; db_migrate_command] ["db"; "migrate"]
  = Some (db_migrate_command, []).
Proof.
  refine (proj2 (proj2 (proj2
    (registered_command_resolves
       [Command db_migrate_command; Command db_command] []
       [db_command; db_migrate_command] db_migrate_command _ _)))).
  - by vm_compute.
  - apply elem_of_cons. right. apply elem_of_cons. by left.
Defined.

Lemma registration_order_witness :
  ended (validate [Command db_command; Command build_command])
  = ended (validate [Command build_command; Command db_command]).
Proof. apply registration_order. apply perm_swap. Defined.

Lemma overview_listing_witness :
  StronglySorted (λ a b, Js.lt a b = true)
    (listed [build_command; db_command] ∅).*1.
Proof.
  refine (proj1 (overview_listing
                   [Command db_command; Command build_command] []
                   [build_command; db_command] ∅ _)).
  by vm_compute.
Defined.

Lemma flag_values_typed_witness :
  (<["help" := VBoolean false]>
     (<["output" := VString "out"]> {[ "watch" := VBoolean true ]})
   : gmap string value) !! "help"
  = Some (VBoolean false).
Proof.
  refine (proj1 (proj2 (proj2 (proj2
    (flag_values_typed {[ "OUT" := "out" ]} build_command ["--watch"] []
       (<["help" := VBoolean false]>
          (<["output" := VString "out"]> {[ "watch" := VBoolean true ]}))
       [] _)))) _).
  - by vm_compute.
  - by vm_compute.
Defined.


Lemma parse_error_outcome_witness :
  root [repeat_command] ∅ 0 ["repeat"; "--count"; "abc"]
  = ([Overview (listed [repeat_command] ∅);
      ErrorLine "expected a number, got: abc"; BlankLine],
     Exited 1).
Proof.
  assert (resolve [repeat_command] ["repeat"; "--count"; "abc"]
          = Some (repeat_command, ["--count"; "abc"])) as Hres by by vm_compute.
  assert (head ["repeat"; "--count"; "abc"] ≠ Some "-h") as Hh by done.
  assert (head ["repeat"; "--count"; "abc"] ≠ Some "--help") as Hhelp by done.
  assert (parse ∅ repeat_command ["--count"; "abc"]
          = ([], Threw (ThrowString "expected a number, got: abc"))) as Hparse
    by by vm_compute.
  destruct (proj1 (parse_error_outcome [repeat_command] ∅ 0 _ _ _ Hres Hh Hhelp)
              _ _ Hparse)
    as (val & type & err & _ & Herr & _ & Hroot).
  injection Herr as <-. exact Hroot.
Defined.

Lemma inherited_list (name : string) :
  name ∈ Object_prototype
  ↔ name = "constructor" ∨ name = "__defineGetter__"
    ∨ name = "__defineSetter__" ∨ name = "hasOwnProperty"
    ∨ name = "__lookupGetter__" ∨ name = "__lookupSetter__"
    ∨ name = "isPrototypeOf" ∨ name = "propertyIsEnumerable"
    ∨ name = "toString" ∨ name = "valueOf" ∨ name = "__proto__"
    ∨ name = "toLocaleString".
Proof.
  unfold Object_prototype. rewrite !elem_of_cons, elem_of_nil. tauto.
Qed.

Lemma boolean_flag_value_witness :
  ∃ st,
    command_line test_command [] = ([], Returned st)
    ∧ ("verbose" ∉ Object_prototype →
       (<["help" := VBoolean false]> {[ "verbose" := VBoolean true ]}
        : gmap string value) !! "verbose"
       = Some (if bool_decide
                    (is_Some (flagVals st !! "verbose")
                     ∨ is_Some (env_value {[ "VERBOSE" := "false" ]}
                                  (Some "VERBOSE")))
               then VBoolean true
               else VBoolean false))
    ∧ ("verbose" ∈ Object_prototype →
       (<["help" := VBoolean false]> {[ "verbose" := VBoolean true ]}
        : gmap string value) !! "verbose"
       = flagVals st !! "verbose"
       ∧ ((<["help" := VBoolean false]> {[ "verbose" := VBoolean true ]}
           : gmap string value) !! "verbose" = None
          ∨ (<["help" := VBoolean false]> {[ "verbose" := VBoolean true ]}
             : gmap string value) !! "verbose" = Some (VBoolean true))).
Proof.
  refine (boolean_flag_value {[ "VERBOSE" := "false" ]} test_command [] []
            (<["help" := VBoolean false]> {[ "verbose" := VBoolean true ]}) []
            "verbose"
            (Flag.make (VBoolean false) "Print more" (Some "VERBOSE")) _ _ _).
  - by vm_compute.
  - by vm_compute.
  - done.
Defined.

Lemma object_flag_keeps_initial_witness :
  (<["help" := VBoolean false]> {[ "since" := VDate 0 ]}
   : gmap string value) !! "since"
  = Some (VDate 0)
  ∧ env_value ∅ (Some "SINCE") = None.
Proof.
  refine (proj1
    (object_flag_keeps_initial ∅ report_command [] []
       (<["help" := VBoolean false]> {[ "since" := VDate 0 ]}) [] "since"
       (Flag.make (VDate 0) "Start of the period" (Some "SINCE")) _ _ _) _).
  - by vm_compute.
  - by vm_compute.
  - done.
  - rewrite inherited_list. intros Hin. repeat destruct Hin as [Hin|Hin]; done.
Defined.

Lemma number_flag_value_witness :
  ∃ n, VNumber (Decimal false "5" "" None) = VNumber n
       ∧ (isNaN n = false ∨ VNumber three = VNumber n).
Proof.
  refine (proj1
    (number_flag_value ∅ repeat_command ["--count"; "5"] []
       (<["help" := VBoolean false]>
          {[ "count" := VNumber (Decimal false "5" "" None) ]}) [] _)
    "count" (Flag.make (VNumber three) "Number of repetitions" None)
    (VNumber (Decimal false "5" "" None)) _ _ _).
  - by vm_compute.
  - by vm_compute.
  - done.
  - by vm_compute.
Defined.

Lemma repeated_flag_last_wins_witness :
  parse_args (λ A, @helpFor A repeat_command (flagSpecs_of repeat_command))
    (flagSpecs_of repeat_command) (ParseState ∅ [] None)
    ["--count"; "1"; "--count"; "2"]
  = parse_args (λ A, @helpFor A repeat_command (flagSpecs_of repeat_command))
      (flagSpecs_of repeat_command) (ParseState ∅ [] None)
      ["--count"; "2"].
Proof.
  refine (repeated_flag_last_wins _ _ ∅ [] "--count" true "count"
            (name_flag ("count",
                        Flag.make (VNumber three) "Number of repetitions" None))
            "1" "2" (VNumber (Decimal false "1" "" None)) [] _ _ _ _).
  - done.
  - by vm_compute.
  - done.
  - done.
Defined.

Lemma env_file_supplies_flag_witness :
  ∃ v, convert "out" (typeof (VString "dist")) = inr v
       ∧ (<["help" := VBoolean false]>
            (<["output" := VString "out"]> {[ "watch" := VBoolean false ]})
          : gmap string value) !! "output"
         = Some v.
Proof.
  refine (env_file_supplies_flag [("OUT", "first")] [("PORT", "80")]
            "OUT" "out" {[ "OUT" := "old" ]}
            build_command [] []
            (<["help" := VBoolean false]>
               (<["output" := VString "out"]> {[ "watch" := VBoolean false ]}))
            [] (ParseState ∅ [] None) "output"
            (Flag.make (VString "dist") "Output directory" (Some "OUT"))
            _ _ _ _ _ _ _ _ _).
  - repeat constructor; try done; by intros c [= <-].
  - intros Hin. apply list_elem_of_singleton in Hin. done.
  - done.
  - by vm_compute.
  - done.
  - rewrite inherited_list. intros Hin. repeat destruct Hin as [Hin|Hin]; done.
  - by vm_compute.
  - done.
  - done.
Defined.

Lemma invalid_registry_stops_every_run_witness :
  ∃ text, ∀ depth process_env args,
    Register depth
      [Command db_migrate_command;
       NewCommand.make (Some "db  migrate") "" None (FlagsObject ∅) (Some silent)]
      process_env args
    = ([Line text], Exited 1).
Proof.
  apply invalid_registry_stops_every_run. right. right.
  exists 0%nat, 1%nat, (Command db_migrate_command),
    (NewCommand.make (Some "db  migrate") "" None (FlagsObject ∅) (Some silent)),
    "db migrate", "db  migrate".
  repeat split; try done. lia.
Defined.
